(** * Network visualisation notebook: saliency maps, fooling images and
      class visualisation

    A shallow embedding of the code cells of
    [assignment2/NetworkVisualization-TensorFlow.ipynb].

    Numerical arrays are nested lists of real numbers (floating point
    numbers are idealised as reals, so rounding and NaN are outside the
    model; where the source divides by zero this is pointed out).  The
    pretrained network and TensorFlow's automatic differentiation are
    external: they enter as a record of oracles together with the shape
    contract that [tf.gradients] and [sess.run] guarantee.  Calls to
    [print] and to the plotting library only produce output and are left
    out, except for the expressions they evaluate that can raise. *)

From Stdlib Require Import Reals Lra Lia ZArith.
From stdpp Require Import base list gmap strings.

Local Open Scope R_scope.

(** ** Arrays *)

(** An array of rank [d]: rank 0 is a scalar, rank [S d] a list of arrays
    of rank [d] (the first axis is the outermost list). *)
Fixpoint tensor (d : nat) : Type :=
  match d with
  | O => R
  | S d' => list (tensor d')
  end.

(** Elementwise unary operation ([np.abs], multiplication by a scalar, ...). *)
Fixpoint tmap {d : nat} (f : R → R) : tensor d → tensor d :=
  match d with
  | O => f
  | S d' => List.map (tmap f)
  end.

(** Elementwise binary operation on two arrays of one shape. *)
Fixpoint tzip {d : nat} (f : R → R → R) : tensor d → tensor d → tensor d :=
  match d with
  | O => f
  | S d' => zip_with (tzip f)
  end.

Definition tadd {d} : tensor d → tensor d → tensor d := tzip Rplus.
Definition tsub {d} : tensor d → tensor d → tensor d := tzip Rminus.
Definition tscale {d} (c : R) : tensor d → tensor d := tmap (Rmult c).
Definition tdiv {d} (t : tensor d) (c : R) : tensor d := tmap (λ x, x / c) t.
Definition tabs {d} : tensor d → tensor d := tmap Rabs.
Definition tzeros_like {d} : tensor d → tensor d := tmap (λ _, 0).

(** [t.shape == s] *)
Fixpoint has_shapeb {d : nat} (s : list nat) : tensor d → bool :=
  match d, s with
  | O, [] => λ _, true
  | S d', n :: s' => λ t, Nat.eqb (length t) n && forallb (has_shapeb s') t
  | _, _ => λ _, false
  end.

Definition has_shape {d} (s : list nat) (t : tensor d) : Prop :=
  has_shapeb s t = true.

(** Every entry satisfies [P]. *)
Fixpoint tall {d : nat} (P : R → Prop) : tensor d → Prop :=
  match d with
  | O => P
  | S d' => Forall (tall P)
  end.

(** Sum of the squares of all entries. *)
Fixpoint sumsq {d : nat} : tensor d → R :=
  match d with
  | O => λ x, x * x
  | S d' => λ t, foldr (λ a acc, sumsq a + acc) 0 t
  end.

(** [np.roll(l, shift)] along the first axis: the entry at position [i]
    moves to position [(i + shift) mod n]. *)
Definition roll {A} (shift : Z) (l : list A) : list A :=
  let n := length l in
  let offset := (shift mod (if Nat.eqb n 0 then 1 else Z.of_nat n))%Z in
  if (offset =? 0)%Z then l
  else drop (n - Z.to_nat offset) l ++ take (n - Z.to_nat offset) l.

(** [np.roll(t, shift, axis)].  Axis 0 of a scalar does not exist; the
    notebook only rolls axes 1 and 2 of a rank-4 array. *)
Fixpoint np_roll {d : nat} (shift : Z) (axis : nat) : tensor d → tensor d :=
  match d with
  | O => λ t, t
  | S d' =>
      match axis with
      | O => roll shift
      | S axis' => List.map (np_roll shift axis')
      end
  end.

(** The jitter of [create_class_visualization] and its inverse. *)
Definition jitter (ox oy : Z) (X : tensor 4) : tensor 4 :=
  np_roll oy 2 (np_roll ox 1 X).
Definition unjitter (ox oy : Z) (X : tensor 4) : tensor 4 :=
  np_roll (- oy) 2 (np_roll (- ox) 1 X).

(** ** Exceptions and results *)

Inductive exn :=
| ValueError (msg : string)
| AssertionError
| ZeroDivisionError
| KeyError
| IndexError
| InvalidArgumentError
| DanglingReference.

(** Outcome of running a cell or a function: a value, a raised exception,
    or a loop that was cut off by the fuel of the model. *)
Inductive result (A : Type) :=
| Ok (a : A)
| Raise (e : exn)
| OutOfFuel.
Arguments Ok {A} a.
Arguments Raise {A} e.
Arguments OutOfFuel {A}.

#[global] Instance result_ret : MRet result := @Ok.
#[global] Instance result_bind : MBind result := λ A B f r,
  match r with
  | Ok a => f a
  | Raise e => Raise e
  | OutOfFuel => OutOfFuel
  end.

(** ** numpy reductions *)

(** [np.max] of a one-dimensional array; numpy refuses an empty one. *)
Definition amax (l : list R) : result R :=
  match l with
  | [] => Raise (ValueError "zero-size array to reduction operation maximum which has no identity")
  | x :: l' => Ok (foldl Rmax x l')
  end.

(** [np.max(t, axis = last)]: the last axis is reduced away. *)
Fixpoint np_max_last {d : nat} : tensor (S d) → result (tensor d) :=
  match d with
  | O => amax
  | S d' => mapM np_max_last
  end.

(** Scan for the first largest entry: [best] at index [best_i] is the
    largest seen so far, [i] the index of the head of [l]. *)
Fixpoint argmax_from (best_i : nat) (best : R) (i : nat) (l : list R) : nat :=
  match l with
  | [] => best_i
  | x :: l' =>
      if Rlt_dec best x then argmax_from i x (S i) l'
      else argmax_from best_i best (S i) l'
  end.

(** [np.argmax(scores)] on a two-dimensional array: index of the first
    maximum of the flattened array. *)
Definition np_argmax (scores : tensor 2) : result Z :=
  match concat scores with
  | [] => Raise (ValueError "attempt to get argmax of an empty sequence")
  | x :: l => Ok (Z.of_nat (argmax_from 0 x 1 l))
  end.

(** [l[k]] for a python or numpy sequence: a negative index counts from
    the end, an index out of range raises. *)
Definition py_getitem {A} (l : list A) (k : Z) : result A :=
  let n := Z.of_nat (length l) in
  let k' := if (k <? 0)%Z then (k + n)%Z else k in
  if (0 <=? k')%Z && (k' <? n)%Z then
    match l !! Z.to_nat k' with
    | Some x => Ok x
    | None => Raise IndexError
    end
  else Raise IndexError.

(** [scores[i, k]] *)
Definition np_getitem2 (scores : tensor 2) (i k : Z) : result R :=
  row ← py_getitem scores i;
  py_getitem (row : list R) k.

(** [tf.norm(t)]: Euclidean norm over all entries. *)
Definition tf_norm {d} (t : tensor d) : R := sqrt (sumsq t).

(** ** The pretrained network and TensorFlow's gradients *)

(** [classifier X] is [sess.run(model.classifier, {model.image: X})], the
    array of class scores of shape (N, 1000); [dscore i k X] is the
    derivative of [model.classifier[i, k]] with respect to [model.image]
    at [X], as backpropagation delivers it. *)
Record SqueezeNet := {
  classifier : tensor 4 → tensor 2;
  dscore : nat → Z → tensor 4 → tensor 4
}.

(** The number of ImageNet classes. *)
Definition num_classes : nat := 1000.
Arguments num_classes : simpl never.

(** What TensorFlow guarantees about shapes: one row of 1000 scores per
    example, and a gradient shaped like the tensor it is taken for. *)
Definition tf_contract (m : SqueezeNet) : Prop :=
  (∀ X, has_shape [length X; num_classes] (classifier m X)) ∧
  (∀ i k s X, has_shape s X → has_shape s (dscore m i k X)).

(** The scores of one example do not depend on the other examples of the
    batch (no layer of SqueezeNet mixes examples): the derivative of a
    score of example [j] vanishes on the pixels of every other example. *)
Definition per_example (m : SqueezeNet) : Prop :=
  ∀ i j k X Gi, i ≠ j → dscore m j k X !! i = Some Gi → tall (λ x, x = 0) Gi.

(** [model.classifier[0, k]]: building the slice fails when [k] is not an
    index into the 1000 classes (a negative index counts from the end). *)
Definition tf_class_index (k : Z) : result Z :=
  if (- Z.of_nat num_classes <=? k)%Z && (k <? Z.of_nat num_classes)%Z then Ok k
  else Raise (ValueError "slice index out of bounds").

(** Scalar nodes of the graph that the notebook builds on [model.image]. *)
Inductive scalar_op :=
| Score (i : nat) (k : Z)
| Norm
| Sub (a b : scalar_op)
| Mul (c : R) (a : scalar_op).

(** Derivative of a scalar node with respect to [model.image]. *)
Fixpoint grad_image (m : SqueezeNet) (e : scalar_op) (X : tensor 4) : tensor 4 :=
  match e with
  | Score i k => dscore m i k X
  | Norm => tdiv X (tf_norm X)
  | Sub a b => tsub (grad_image m a X) (grad_image m b X)
  | Mul c a => tscale c (grad_image m a X)
  end.

(** The sum of the arrays [ts]; with nothing to sum it is zero, shaped
    like [X]. *)
Definition tsum_like (X : tensor 4) (ts : list (tensor 4)) : tensor 4 :=
  match ts with
  | [] => tzeros_like X
  | t :: ts' => foldl tadd t ts'
  end.

(** [tf.gradients(ys, model.image)] evaluated at [X]: a list with one
    entry, the sum over all [ys] of their derivatives. *)
Definition tf_gradients (m : SqueezeNet) (ys : list scalar_op) (X : tensor 4)
  : list (tensor 4) :=
  [tsum_like X (List.map (λ y, grad_image m y X) ys)].

(** [tf.reduce_sum(ts, axis=0)] on a python list of tensors. *)
Definition tf_reduce_sum0 (ts : list (tensor 4)) : tensor 4 :=
  match ts with
  | [] => []
  | t :: ts' => foldl tadd t ts'
  end.

(** [first, *_ = xs] *)
Definition unpack_first {A} (xs : list A) : result A :=
  match xs with
  | [] => Raise (ValueError "not enough values to unpack (expected at least 1, got 0)")
  | x :: _ => Ok x
  end.

(** ** Saliency maps *)

(** [tf.gather_nd(model.classifier, tf.stack((tf.range(N), model.labels), axis=1))]:
    one label per example is needed, and every label has to index a class. *)
Definition correct_scores (N : nat) (y : list Z) : result (list scalar_op) :=
  if decide (length y = N) then
    if forallb (λ k, (0 <=? k)%Z && (k <? Z.of_nat num_classes)%Z) y
    then Ok (zip_with Score (seq 0 N) y)
    else Raise InvalidArgumentError
  else Raise InvalidArgumentError.

(** [compute_saliency_maps(X, y, model)] *)
Definition compute_saliency_maps (X : tensor 4) (y : list Z) (m : SqueezeNet)
  : result (tensor 3) :=
  cs ← correct_scores (length X) y;
  let grad_image := tf_reduce_sum0 (tf_gradients m cs X) in
  let saliency := grad_image in
  np_max_last (tabs saliency).

(** ** Fooling images *)

(** numpy arrays are mutable objects: the heap maps references to arrays. *)
Definition loc := positive.
Abbreviation heap := (gmap loc (tensor 4)).

(** Reading a reference.  Python references never dangle; the error case
    only makes the function total. *)
Definition deref (l : loc) (σ : heap) : result (tensor 4) :=
  match σ !! l with
  | Some X => Ok X
  | None => Raise DanglingReference
  end.

(** [X.copy()]: a new array with the same contents. *)
Definition np_copy (l : loc) (σ : heap) : result (loc * heap) :=
  X ← deref l σ;
  let l' := fresh (dom σ) in
  Ok (l', <[l' := X]> σ).

(** [a += b] on arrays of one shape, in place. *)
Definition np_iadd (l : loc) (D : tensor 4) (σ : heap) : result heap :=
  X ← deref l σ;
  Ok (<[l := tadd X D]> σ).

(** [n * xs] for a python int and a python list. *)
Definition py_list_mul {A} (n : Z) (xs : list A) : list A :=
  concat (replicate (Z.to_nat n) xs).

(** The two constants of [make_fooling_image]. *)
Definition learning_rate : Z := 1.
Definition n_iterations : Z := 100.

(** [dX = learning_rate * g / tf.norm(g)] with
    [g = tf.gradients(model.classifier[0, target_y], model.image)],
    evaluated at [X].  [g] is a python list, so the product with the int
    [learning_rate] repeats the list, and the quotient stacks it. *)
Definition fooling_dX (m : SqueezeNet) (target_y : Z) (X : tensor 4) : tensor 5 :=
  let target_score := Score 0 target_y in
  let g := tf_gradients m [target_score] X in
  tdiv (d:=5) (py_list_mul learning_rate g) (tf_norm (d:=5) g).

(** The value of [dX] that an update step unpacks: the gradient of the
    target score divided by its norm. *)
Definition fooling_increment (m : SqueezeNet) (target_y : Z) (X : tensor 4) : tensor 4 :=
  tdiv (dscore m 0 target_y X) (tf_norm (dscore m 0 target_y X)).

(** [np.argmax(sess.run(model.classifier, {model.image: X_fooling}))] *)
Definition predict (m : SqueezeNet) (l : loc) (σ : heap) : result Z :=
  X ← deref l σ;
  np_argmax (classifier m X).

(** One pass through the body of the [while] loop; the progress line it
    prints reads [scores[0, target_y]]. *)
Definition fooling_body (m : SqueezeNet) (target_y : Z) (lf : loc) (σ : heap)
  : result (Z * heap) :=
  X ← deref lf σ;
  dX_val ← unpack_first (fooling_dX m target_y X);
  σ' ← np_iadd lf dX_val σ;
  X' ← deref lf σ';
  let scores := classifier m X' in
  y ← np_argmax scores;
  _ ← np_getitem2 scores 0 target_y;
  Ok (y, σ').

(** [while (i < n_iterations) & (y != target_y): ...; i += 1] *)
Fixpoint fooling_loop (fuel : nat) (m : SqueezeNet) (target_y : Z) (lf : loc)
    (i y : Z) (σ : heap) : result (Z * Z * heap) :=
  if (i <? n_iterations)%Z && negb (y =? target_y)%Z then
    match fuel with
    | O => OutOfFuel
    | S fuel' =>
        '(y', σ') ← fooling_body m target_y lf σ;
        fooling_loop fuel' m target_y lf (i + 1) y' σ'
    end
  else Ok (i, y, σ).

(** The whole function, also reporting the final values of [i] and [y]. *)
Definition fooling_run (fuel : nat) (lX : loc) (target_y : Z) (m : SqueezeNet)
    (σ : heap) : result (loc * Z * Z * heap) :=
  '(lf, σ0) ← np_copy lX σ;
  target_y ← tf_class_index target_y;
  y ← predict m lf σ0;
  '(i, y', σ') ← fooling_loop fuel m target_y lf 0 y σ0;
  Ok (lf, i, y', σ').

(** [make_fooling_image(X, target_y, model)]: the reference of
    [X_fooling] and the heap after the call. *)
Definition make_fooling_image (fuel : nat) (lX : loc) (target_y : Z)
    (m : SqueezeNet) (σ : heap) : result (loc * heap) :=
  '(lf, _, _, σ') ← fooling_run fuel lX target_y m σ;
  Ok (lf, σ').

(** The contents of [X_fooling] after [k] passes through the body of the
    loop, each pass being [X_fooling += dX_val], starting from [X]. *)
Fixpoint fooling_image_after (m : SqueezeNet) (target_y : Z) (k : nat) (X : tensor 4)
  : tensor 4 :=
  match k with
  | O => X
  | S k' => fooling_image_after m target_y k' (tadd X (fooling_increment m target_y X))
  end.

(** ** Loading the pretrained model *)

Definition SAVE_PATH : string := "deeplearning/datasets/squeezenet.ckpt".

(** The cell that loads the network; [files] are the paths for which
    [os.path.exists] holds and [restore] stands for the constructor
    [SqueezeNet(save_path=..., sess=sess)]. *)
Definition load_pretrained {M} (restore : string → result M) (files : gset string)
  : result M :=
  if negb (bool_decide (SAVE_PATH ∈ files)) then
    Raise (ValueError "You need to download SqueezeNet!")
  else restore SAVE_PATH.

(** ** Blurring *)

(** Index into an array of length [n] extended by reflection about its
    edges (scipy's boundary mode [reflect]: d c b a | a b c d | d c b a). *)
Definition reflect_index (n : nat) (i : Z) : nat :=
  let m := (i mod (2 * Z.of_nat n))%Z in
  if (m <? Z.of_nat n)%Z then Z.to_nat m else Z.to_nat (2 * Z.of_nat n - 1 - m).

(** [int(truncate * sigma + 0.5)] with [truncate = 4.0], for the positive
    [sigma] of a blur (the notebook uses 0.5 and 1), where [int] rounds
    down; for other values scipy, depending on its version, raises. *)
Definition gaussian_radius (sigma : R) : nat := Z.to_nat (Int_part (4 * sigma + / 2)).

(** Sum of a list of weights. *)
Definition sum_list (l : list R) : R := foldr Rplus 0 l.

(** The normalised Gaussian weights for the offsets [-radius .. radius]. *)
Definition gaussian_kernel1d (sigma : R) (radius : nat) : list R :=
  let phi := List.map (λ j : nat, exp (- (/ 2) / (sigma * sigma) * (IZR (Z.of_nat j - Z.of_nat radius)) ^ 2))
                      (seq 0 (2 * radius + 1)) in
  List.map (λ p, p / sum_list phi) phi.

(** One output entry of [correlate1d]: the weighted sum of the entries
    around position [i]; [x] is the entry at [i] itself. *)
Definition correlate_at {d} (w : list R) (l : list (tensor d)) (i : nat) (x : tensor d)
  : tensor d :=
  foldr (λ '(j, wj) acc,
           tadd (tscale wj (nth (reflect_index (length l)
                                   (Z.of_nat i + Z.of_nat j - Z.of_nat (length w / 2))) l x))
                acc)
        (tzeros_like x) (zip (seq 0 (length w)) w).

(** [scipy.ndimage.correlate1d(t, w, axis)] with the default boundary mode. *)
Fixpoint correlate1d {d : nat} (w : list R) (axis : nat) : tensor d → tensor d :=
  match d with
  | O => λ t, t
  | S d' =>
      match axis with
      | O => λ t, imap (correlate_at w t) t
      | S axis' => List.map (correlate1d w axis')
      end
  end.

(** [scipy.ndimage.gaussian_filter1d(X, sigma, axis)] *)
Definition gaussian_filter1d {d} (X : tensor d) (sigma : R) (axis : nat) : tensor d :=
  correlate1d (reverse (gaussian_kernel1d sigma (gaussian_radius sigma))) axis X.

(** [blur_image(X, sigma)] *)
Definition blur_image (X : tensor 4) (sigma : R) : tensor 4 :=
  let X := gaussian_filter1d X sigma 1 in
  let X := gaussian_filter1d X sigma 2 in
  X.

(** ** Class visualisation *)

(** An operation between an array and one value per channel, the channel
    values being broadcast along the last axis. *)
Fixpoint broadcast_last {d : nat} {B} (f : R → B → R) (bs : list B)
  : tensor (S d) → tensor (S d) :=
  match d with
  | O => λ px, zip_with f px bs
  | S d' => List.map (broadcast_last f bs)
  end.

(** [np.clip(t, lo, hi)] with [lo] and [hi] broadcast along the last axis. *)
Definition np_clip {d : nat} (lo hi : list R) : tensor (S d) → tensor (S d) :=
  broadcast_last (λ x b, Rmin (Rmax x b.1) b.2) (zip lo hi).

(** Every entry lies between [s] times the lower and [s] times the upper
    bound of its channel ([s = 1]: within the clip interval). *)
Fixpoint scaled_within {d : nat} (s : R) (lo hi : list R) : tensor (S d) → Prop :=
  match d with
  | O => λ px, Forall2 (λ x b, s * b.1 <= x <= s * b.2) px (zip lo hi)
  | S d' => Forall (scaled_within s lo hi)
  end.

Definition within {d} (lo hi : list R) (t : tensor (S d)) : Prop :=
  scaled_within 1 lo hi t.

(** The generator behind [np.random]: each call consumes a state. *)
Record RandomState (G : Type) := {
  random_rand : list nat → G → tensor 3 * G;
  random_randint : Z → Z → G → (Z * Z) * G
}.
Arguments random_rand {G} _ _ _.
Arguments random_randint {G} _ _ _ _.

(** [np.random.rand(h, w, c)] has the requested shape and entries in [0, 1). *)
Definition rand_contract {G} (rs : RandomState G) : Prop :=
  ∀ s g, length s = 3%nat →
    has_shape s (random_rand rs s g).1 ∧ tall (λ u, 0 <= u < 1) (random_rand rs s g).1.

(** [np.random.randint(low, high, 2)] *)
Definition np_random_randint {G} (rs : RandomState G) (low high : Z) (g : G)
  : result ((Z * Z) * G) :=
  if (low <? high)%Z then Ok (random_randint rs low high g)
  else Raise (ValueError "low >= high").

(** The keyword arguments of [create_class_visualization]. *)
Record kwargs := {
  kw_l2_reg : option R;
  kw_learning_rate : option R;
  kw_num_iterations : option Z;
  kw_blur_every : option Z;
  kw_max_jitter : option Z;
  kw_show_every : option Z
}.

(** [kwargs.pop(key, dflt)] *)
Definition pop {A} (o : option A) (dflt : A) : A := default dflt o.

Definition l2_reg (kw : kwargs) : R := pop (kw_l2_reg kw) (1 / 1000).
Definition cv_learning_rate (kw : kwargs) : R := pop (kw_learning_rate kw) 25.
Definition num_iterations (kw : kwargs) : Z := pop (kw_num_iterations kw) 100%Z.
Definition blur_every (kw : kwargs) : Z := pop (kw_blur_every kw) 10%Z.
Definition max_jitter (kw : kwargs) : Z := pop (kw_max_jitter kw) 16%Z.
Definition show_every (kw : kwargs) : Z := pop (kw_show_every kw) 25%Z.

(** [t % blur_every == 0] *)
Definition blur_due (kw : kwargs) (t : Z) : result bool :=
  if (blur_every kw =? 0)%Z then Raise ZeroDivisionError
  else Ok (t mod blur_every kw =? 0)%Z.

(** [t == 0 or (t + 1) % show_every == 0 or t == num_iterations - 1] *)
Definition show_due (kw : kwargs) (t : Z) : result bool :=
  if (t =? 0)%Z then Ok true
  else if (show_every kw =? 0)%Z then Raise ZeroDivisionError
  else Ok (((t + 1) mod show_every kw =? 0)%Z || (t =? num_iterations kw - 1)%Z).

(** [model.classifier[0, target_y] - l2_reg * tf.norm(model.image)] *)
Definition cv_loss (kw : kwargs) (target_y : Z) : scalar_op :=
  Sub (Score 0 target_y) (Mul (l2_reg kw) Norm).

Section ClassVisualization.
(** From [deeplearning.image_utils] and from the cell that loads the
    validation images: not part of the notebook, taken as given. *)
Context (SQUEEZENET_MEAN SQUEEZENET_STD : list R).
Context (preprocess_image : tensor 3 → tensor 3).
Context (class_names : gmap Z string).
Context {G : Type} (rs : RandomState G).

(** The clip bounds [-SQUEEZENET_MEAN / SQUEEZENET_STD] and
    [(1.0 - SQUEEZENET_MEAN) / SQUEEZENET_STD], one pair per channel. *)
Definition clip_lo : list R := zip_with (λ m s, - m / s) SQUEEZENET_MEAN SQUEEZENET_STD.
Definition clip_hi : list R := zip_with (λ m s, (1 - m) / s) SQUEEZENET_MEAN SQUEEZENET_STD.

(** The image before the loop: [preprocess_image(255 * rand(224, 224, 3))[None]]. *)
Definition cv_initial (g : G) : tensor 4 * G :=
  let '(u, g) := random_rand rs [224; 224; 3]%nat g in
  let X := tscale 255 u in
  ([preprocess_image X], g).

(** The title of the figure looks the class up; nothing else of the
    display can raise. *)
Definition cv_show (target_y : Z) : result unit :=
  match class_names !! target_y with
  | Some _ => Ok ()
  | None => Raise KeyError
  end.

(** The body of the [for] loop at iteration [t]. *)
Definition cv_iteration (target_y : Z) (m : SqueezeNet) (kw : kwargs) (t : Z)
    (st : tensor 4 * G) : result (tensor 4 * G) :=
  let '(X, g) := st in
  '(oxy, g) ← np_random_randint rs (- max_jitter kw) (max_jitter kw + 1) g;
  let '(ox, oy) := oxy in
  let X := jitter ox oy X in
  grad_val ← unpack_first (tf_gradients m [cv_loss kw target_y] X);
  if has_shapeb [1; 224; 224; 3]%nat grad_val then
    let X := tadd X (tscale (cv_learning_rate kw) grad_val) in
    let X := unjitter ox oy X in
    let X := np_clip clip_lo clip_hi X in
    blur ← blur_due kw t;
    let X := if blur : bool then blur_image X (1 / 2) else X in
    show ← show_due kw t;
    _ ← (if show : bool then cv_show target_y else Ok ());
    Ok (X, g)
  else Raise AssertionError.

(** [for t in range(num_iterations)], from iteration [t] on with [n]
    iterations left. *)
Fixpoint cv_loop (target_y : Z) (m : SqueezeNet) (kw : kwargs) (n : nat) (t : Z)
    (st : tensor 4 * G) : result (tensor 4 * G) :=
  match n with
  | O => Ok st
  | S n' =>
      st' ← cv_iteration target_y m kw t st;
      cv_loop target_y m kw n' (t + 1) st'
  end.

(** [create_class_visualization(target_y, model, **kwargs)]: the returned
    image and the state of the generator after the call. *)
Definition create_class_visualization (target_y : Z) (m : SqueezeNet) (kw : kwargs)
    (g : G) : result (tensor 4 * G) :=
  let st := cv_initial g in
  target_y ← tf_class_index target_y;
  cv_loop target_y m kw (Z.to_nat (num_iterations kw)) 0 st.

(** What the function needs of its arguments to run without raising: a
    target among the 1000 classes, a nonempty range for the jitter,
    nonzero divisors, and a name for the target class. *)
Definition cv_ready (target_y : Z) (kw : kwargs) : Prop :=
  (0 <= target_y < 1000)%Z ∧
  (0 <= max_jitter kw)%Z ∧ blur_every kw ≠ 0%Z ∧ show_every kw ≠ 0%Z ∧
  is_Some (class_names !! target_y).

(** What is used of [deeplearning.image_utils]: one mean and one positive
    standard deviation per colour channel, and a preprocessing that keeps
    the shape of the image. *)
Definition image_utils_ok : Prop :=
  length SQUEEZENET_MEAN = 3%nat ∧ length SQUEEZENET_STD = 3%nat ∧
  Forall (λ s, 0 < s) SQUEEZENET_STD ∧
  (∀ u, has_shape [224; 224; 3]%nat u → has_shape [224; 224; 3]%nat (preprocess_image u)).

(** The image of iteration [t] after the gradient step and the undoing of
    the jitter, before it is clipped. *)
Definition cv_ascent (target_y : Z) (m : SqueezeNet) (kw : kwargs) (ox oy : Z)
    (X : tensor 4) : tensor 4 :=
  let X := jitter ox oy X in
  let grad_val := grad_image m (cv_loss kw target_y) X in
  unjitter ox oy (tadd X (tscale (cv_learning_rate kw) grad_val)).
End ClassVisualization.

(** ** The cells around the three functions *)

(** [a[mask]] for an array [mask] of integers: the entries of [a] at the
    given indices, in the order of [mask]. *)
Definition np_take {A} (a : list A) (mask : list Z) : result (list A) :=
  mapM (py_getitem a) mask.

(** [d[k]] for a python dict. *)
Definition py_dict_getitem {V} (d : gmap Z V) (k : Z) : result V :=
  match d !! k with
  | Some v => Ok v
  | None => Raise KeyError
  end.

(** What one pass of the plotting loop of [show_saliency_maps] reads:
    [Xm[i]], [class_names[ym[i]]], [mask[i]] and [saliency[i]]. *)
Definition show_saliency_row (class_names : gmap Z string) (Xm : tensor 4) (ym mask : list Z)
    (saliency : tensor 3) (i : nat) : result unit :=
  _ ← py_getitem (A:=tensor 3) Xm (Z.of_nat i);
  yi ← py_getitem ym (Z.of_nat i);
  _ ← py_dict_getitem class_names yi;
  _ ← py_getitem mask (Z.of_nat i);
  _ ← py_getitem (A:=tensor 2) saliency (Z.of_nat i);
  Ok ().

(** [show_saliency_maps(X, y, mask)], with the globals [class_names] and
    [model] as arguments. *)
Definition show_saliency_maps (class_names : gmap Z string) (m : SqueezeNet)
    (X : tensor 4) (y mask : list Z) : result unit :=
  Xm ← np_take (A:=tensor 3) X mask;
  ym ← np_take y mask;
  saliency ← compute_saliency_maps Xm ym m;
  _ ← mapM (show_saliency_row class_names Xm ym mask saliency) (seq 0 (length mask));
  Ok ().

(** [row.argmax()] on a one-dimensional array. *)
Definition argmax1 (row : list R) : result Z :=
  match row with
  | [] => Raise (ValueError "attempt to get argmax of an empty sequence")
  | x :: l => Ok (Z.of_nat (argmax_from 0 x 1 l))
  end.

(** The call of [make_fooling_image] in the cell that follows it, and the
    check made on its result:
    [assert scores[0].argmax() == target_y, 'The network is not fooled!']. *)
Definition fooling_check (fuel : nat) (lXi : loc) (target_y : Z) (m : SqueezeNet)
    (σ : heap) : result (loc * heap) :=
  '(lf, σ') ← make_fooling_image fuel lXi target_y m σ;
  X_fooling ← deref lf σ';
  let scores := classifier m X_fooling in
  row ← py_getitem scores 0;
  y ← argmax1 row;
  if (y =? target_y)%Z then Ok (lf, σ') else Raise AssertionError.

(** ** Example networks and inputs *)

(** A network whose scores do not react to the image (every unit of the last
    layer is inactive): all scores and all derivatives are zero. *)
Definition dead_model : SqueezeNet := {|
  classifier := λ X, List.map (λ _, replicate num_classes 0) X;
  dscore := λ _ _ X, tzeros_like X
|}.

(** Sum of all entries. *)
Fixpoint tsum {d : nat} : tensor d → R :=
  match d with
  | O => λ x, x
  | S d' => λ t, foldr (λ a acc, tsum a + acc) 0 t
  end.

(** A linear network: the score of class [k] for an example is [k + 1]
    times the sum of its pixels. *)
Definition linear_model : SqueezeNet := {|
  classifier := λ X,
    List.map (λ img, List.map (λ k : nat, IZR (Z.of_nat k + 1) * tsum (d:=3) img) (seq 0 num_classes)) X;
  dscore := λ i k X,
    imap (λ j img, if decide (j = i) then tmap (d:=3) (λ _, IZR (k + 1)) img
                   else tzeros_like img) X
|}.

(** A black image of full size, a single pixel, and a batch of two
    one-pixel images. *)
Definition zero_image : tensor 4 := [replicate 224 (replicate 224 [0; 0; 0])].
Definition one_pixel : tensor 4 := [[[[0; 0; 0]]]].
Definition two_examples : tensor 4 := [[[[1; -2; 3]]]; [[[4; 5; 6]]]].

(** The usual ImageNet statistics and the usual normalisation,
    [(img / 255 - mean) / std]. *)
Definition imagenet_mean : list R := [485 / 1000; 456 / 1000; 406 / 1000].
Definition imagenet_std : list R := [229 / 1000; 224 / 1000; 225 / 1000].
Definition standard_preprocess (img : tensor 3) : tensor 3 :=
  broadcast_last (λ x b, (x / 255 - b.1) / b.2) (zip imagenet_mean imagenet_std) img.

(** An array of the given shape filled with one value. *)
Definition np_full (s : list nat) (v : R) : tensor 3 :=
  match s with
  | [a; b; c] => replicate a (replicate b (replicate c v))
  | _ => []
  end.

(** A generator that always draws the same numbers: one half for [rand]
    and the lower end of the range for [randint]. *)
Definition constant_rng : RandomState unit := {|
  random_rand := λ s g, (np_full s (1 / 2), g);
  random_randint := λ low high g, ((low, low), g)
|}.

Definition default_kwargs : kwargs := {|
  kw_l2_reg := None; kw_learning_rate := None; kw_num_iterations := None;
  kw_blur_every := None; kw_max_jitter := None; kw_show_every := None
|}.

Definition no_iterations : kwargs := {|
  kw_l2_reg := None; kw_learning_rate := None; kw_num_iterations := Some 0%Z;
  kw_blur_every := None; kw_max_jitter := None; kw_show_every := None
|}.

Definition tarantula_only : gmap Z string := {[76%Z := "tarantula"]}.

(** Keyword arguments that set one option to an edge value. *)
Definition blur_every_zero : kwargs := {|
  kw_l2_reg := None; kw_learning_rate := None; kw_num_iterations := None;
  kw_blur_every := Some 0%Z; kw_max_jitter := None; kw_show_every := None
|}.

Definition show_every_zero (n : Z) : kwargs := {|
  kw_l2_reg := None; kw_learning_rate := None; kw_num_iterations := Some n;
  kw_blur_every := None; kw_max_jitter := None; kw_show_every := Some 0%Z
|}.

Definition negative_jitter : kwargs := {|
  kw_l2_reg := None; kw_learning_rate := None; kw_num_iterations := None;
  kw_blur_every := None; kw_max_jitter := Some (-1)%Z; kw_show_every := None
|}.

(** * Properties *)

(** ** The library functions on small inputs *)

Example roll_forward : roll 1 [0; 1; 2; 3; 4]%nat = [4; 0; 1; 2; 3]%nat.
Proof. reflexivity. Qed.

Example roll_backward : roll (-1) [0; 1; 2; 3; 4]%nat = [1; 2; 3; 4; 0]%nat.
Proof. reflexivity. Qed.

Example roll_wraps : roll 7 [0; 1; 2; 3; 4]%nat = [3; 4; 0; 1; 2]%nat.
Proof. reflexivity. Qed.

Example roll_empty : roll 3 ([] : list nat) = [].
Proof. reflexivity. Qed.

Example reflect_index_edges :
  List.map (reflect_index 4) [-5; -2; -1; 0; 3; 4; 5; 8]%Z = [3; 1; 0; 0; 3; 3; 2; 0]%nat.
Proof. reflexivity. Qed.

Example py_list_mul_once : py_list_mul 1 [7%nat] = [7%nat].
Proof. reflexivity. Qed.

Example py_list_mul_twice : py_list_mul 2 [7%nat] = [7%nat; 7%nat].
Proof. reflexivity. Qed.

Example py_getitem_negative : py_getitem [10; 20; 30]%nat (-1) = Ok 30%nat.
Proof. reflexivity. Qed.

Example py_getitem_out_of_range : py_getitem [10; 20; 30]%nat 3 = Raise IndexError.
Proof. reflexivity. Qed.

Example has_shape_two_examples : has_shape [2; 1; 1; 3]%nat two_examples.
Proof. reflexivity. Qed.

(** [sigma = 0.5] gives a kernel of radius 2, that is five weights. *)
Example gaussian_radius_half : gaussian_radius (1 / 2) = 2%nat.
Proof.
  unfold gaussian_radius. rewrite <- (Int_part_spec (4 * (1 / 2) + / 2) 2); [done|].
  split; lra.
Qed.

Example load_pretrained_present :
  load_pretrained (M:=string) Ok {[SAVE_PATH]} = Ok SAVE_PATH.
Proof. reflexivity. Qed.

(** ** Shapes and elementwise operations *)

Lemma has_shape_cons {d} (n : nat) (s : list nat) (t : list (tensor d)) :
  has_shape (d:=S d) (n :: s) t ↔ length t = n ∧ Forall (has_shape s) t.
Proof.
  unfold has_shape. simpl. rewrite andb_true_iff, Nat.eqb_eq, forallb_forall.
  rewrite Forall_forall. setoid_rewrite list_elem_of_In. done.
Qed.

Lemma has_shape_scalar (s : list nat) (x : tensor 0) : has_shape s x ↔ s = [].
Proof. unfold has_shape. destruct s; simpl; split; done. Qed.

Lemma has_shape_tmap {d} (f : R → R) (s : list nat) (t : tensor d) :
  has_shape s t → has_shape s (tmap f t).
Proof.
  revert s t. induction d as [|d IH]; intros s t H.
  - apply has_shape_scalar in H. by apply has_shape_scalar.
  - destruct s as [|n s]; [done|].
    apply has_shape_cons in H as [Hl Hf]. apply has_shape_cons. simpl. split.
    + by rewrite length_map.
    + apply Forall_fmap. eapply Forall_impl; [done|]. intros x Hx. by apply IH.
Qed.

Lemma Forall_zip_with_both {A B C} (P : A → Prop) (Q : B → Prop) (T : C → Prop)
    (f : A → B → C) (l : list A) (k : list B) :
  (∀ a b, P a → Q b → T (f a b)) →
  Forall P l → Forall Q k → Forall T (zip_with f l k).
Proof.
  intros Hf Hl. revert k. induction Hl as [|a l Ha Hl IH]; intros k Hk; [constructor|].
  destruct Hk as [|b k Hb Hk]; simpl; constructor; auto.
Qed.

Lemma has_shape_tzip {d} (f : R → R → R) (s : list nat) (a b : tensor d) :
  has_shape s a → has_shape s b → has_shape s (tzip f a b).
Proof.
  revert s a b. induction d as [|d IH]; intros s a b Ha Hb.
  - apply has_shape_scalar in Ha. by apply has_shape_scalar.
  - destruct s as [|n s]; [done|].
    apply has_shape_cons in Ha as [Hla Hfa]. apply has_shape_cons in Hb as [Hlb Hfb].
    apply has_shape_cons. simpl. split.
    + rewrite length_zip_with. lia.
    + eapply Forall_zip_with_both; [|exact Hfa|exact Hfb]. intros; by apply IH.
Qed.

Lemma tall_tmap {d} (P Q : R → Prop) (f : R → R) (t : tensor d) :
  (∀ x, P x → Q (f x)) → tall P t → tall Q (tmap f t).
Proof.
  intros Hf. induction d as [|d IH]; simpl; [by auto|].
  intros H. apply Forall_fmap. eapply Forall_impl; [done|]. intros x. apply IH.
Qed.

Lemma tall_true {d} (P : R → Prop) (t : tensor d) : (∀ x, P x) → tall P t.
Proof.
  intros HP. induction d as [|d IH]; simpl; [done|].
  apply Forall_forall. intros x _. apply IH.
Qed.

(** ** Rolling *)

Lemma length_roll {A} (s : Z) (l : list A) : length (roll s l) = length l.
Proof.
  unfold roll. case_match; [done|].
  rewrite length_app, length_drop, length_take. lia.
Qed.

Lemma roll_inverse {A} (s : Z) (l : list A) : roll (- s) (roll s l) = l.
Proof.
  unfold roll at 1. rewrite length_roll. unfold roll.
  destruct (Nat.eqb_spec (length l) 0) as [Hn|Hn].
  - rewrite !Z.mod_1_r. done.
  - set (n := length l) in *.
    assert (0 < Z.of_nat n)%Z as Hpos by lia.
    pose proof (Z.mod_pos_bound s (Z.of_nat n) Hpos) as Hb.
    destruct (Z.eqb_spec (s mod Z.of_nat n) 0) as [H0|H0].
    + rewrite Z.mod_opp_l_z by lia. done.
    + rewrite Z.mod_opp_l_nz by lia.
      destruct (Z.eqb_spec (Z.of_nat n - s mod Z.of_nat n) 0) as [H1|H1]; [lia|].
      set (k := (n - Z.to_nat (s mod Z.of_nat n))%nat).
      assert (n - Z.to_nat (Z.of_nat n - s mod Z.of_nat n) = n - k)%nat as -> by lia.
      assert (k ≤ n)%nat as Hk by lia.
      assert (length (drop k l) = n - k)%nat as Hd by (rewrite length_drop; done).
      rewrite drop_app_length', take_app_length' by done.
      apply take_drop.
Qed.

Lemma roll_fmap {A B} (f : A → B) (s : Z) (l : list A) :
  roll s (List.map f l) = List.map f (roll s l).
Proof.
  unfold roll. rewrite length_map. case_match; [done|].
  change (List.map f) with (fmap (M:=list) f).
  by rewrite fmap_app, fmap_drop, fmap_take.
Qed.

Lemma Forall_roll {A} (P : A → Prop) (s : Z) (l : list A) :
  Forall P l → Forall P (roll s l).
Proof.
  intros H. unfold roll. case_match; [done|].
  apply Forall_app. split; [by apply Forall_drop | by apply Forall_take].
Qed.

Lemma np_roll_inverse {d} (s : Z) (axis : nat) (t : tensor d) :
  np_roll (- s) axis (np_roll s axis t) = t.
Proof.
  revert axis t. induction d as [|d IH]; intros axis t; [done|].
  destruct axis as [|axis]; simpl.
  - apply roll_inverse.
  - rewrite <- list_fmap_compose. rewrite <- (list_fmap_id t) at 2.
    apply list_fmap_ext. intros _ x _. simpl. apply IH.
Qed.

(** Rolls along two different axes commute (here: axes 1 and 2). *)
Lemma np_roll_1_2_comm (a b : Z) (X : tensor 4) :
  np_roll a 1 (np_roll b 2 X) = np_roll b 2 (np_roll a 1 X).
Proof.
  simpl. rewrite <- !list_fmap_compose.
  apply list_fmap_ext. intros _ img _. simpl. apply roll_fmap.
Qed.

Lemma has_shape_np_roll {d} (sh : Z) (axis : nat) (s : list nat) (t : tensor d) :
  has_shape s t → has_shape s (np_roll sh axis t).
Proof.
  revert axis s t. induction d as [|d IH]; intros axis s t H; [done|].
  destruct s as [|n s]; [done|].
  apply has_shape_cons in H as [Hl Hf]. apply has_shape_cons.
  destruct axis as [|axis]; simpl.
  - split; [by rewrite length_roll | by apply Forall_roll].
  - split; [by rewrite length_map|].
    apply Forall_fmap. eapply Forall_impl; [done|]. intros x Hx. by apply IH.
Qed.

Lemma roll_zip_with {A} (f : A → A → A) (s : Z) (a b : list A) :
  length a = length b →
  roll s (zip_with f a b) = zip_with f (roll s a) (roll s b).
Proof.
  intros Hlen. unfold roll. rewrite length_zip_with, <- Hlen, Nat.min_id.
  case_match; [done|].
  rewrite zip_with_drop, zip_with_take, zip_with_app; [done|].
  rewrite !length_drop. lia.
Qed.

Lemma zip_with_fmap_comm {A} (P : A → Prop) (g : A → A) (f : A → A → A) (a b : list A) :
  (∀ x y, P x → P y → g (f x y) = f (g x) (g y)) →
  Forall P a → Forall P b →
  List.map g (zip_with f a b) = zip_with f (List.map g a) (List.map g b).
Proof.
  intros Hg Ha. revert b. induction Ha as [|x a Hx _ IH]; intros b Hb; [done|].
  destruct Hb as [|y b Hy Hb]; [done|]. simpl. f_equal; auto.
Qed.

(** Rolling commutes with an elementwise operation on arrays of one shape. *)
Lemma np_roll_tzip {d} (f : R → R → R) (sh : Z) (axis : nat) (s : list nat)
    (a b : tensor d) :
  has_shape s a → has_shape s b →
  np_roll sh axis (tzip f a b) = tzip f (np_roll sh axis a) (np_roll sh axis b).
Proof.
  revert axis s a b. induction d as [|d IH]; intros axis s a b Ha Hb; [done|].
  destruct s as [|n s]; [done|].
  apply has_shape_cons in Ha as [Hla Hfa]. apply has_shape_cons in Hb as [Hlb Hfb].
  destruct axis as [|axis]; simpl.
  - apply roll_zip_with. congruence.
  - apply (zip_with_fmap_comm (has_shape s)); [|done..].
    intros x y Hx Hy. by apply (IH axis s).
Qed.

(** The gradient step is taken on the jittered image; undoing the jitter
    leaves every pixel of [X] where it was and only carries the update
    back with it. *)
Lemma jitter_no_net_translation (ox oy : Z) (s : list nat) (X D : tensor 4) :
  has_shape s X → has_shape s D →
  unjitter ox oy (tadd (jitter ox oy X) D) = tadd X (unjitter ox oy D).
Proof.
  intros HX HD. unfold unjitter, tadd.
  assert (has_shape s (jitter ox oy X)) as HJ by (by do 2 apply has_shape_np_roll).
  rewrite (np_roll_tzip _ _ _ s) by done.
  rewrite (np_roll_tzip _ _ _ s) by (by apply has_shape_np_roll).
  f_equal. unfold jitter.
  rewrite np_roll_1_2_comm, np_roll_inverse. apply np_roll_inverse.
Qed.

(** C7: the jitter is exactly self-inverse.  For every array [X] and all
    offsets [ox], [oy], rolling by [ox] along axis 1 and by [oy] along
    axis 2 and then rolling the result by [-ox] and [-oy] gives back [X]:
    every entry returns to its position. *)
Theorem jitter_self_inverse (ox oy : Z) (X : tensor 4) :
  unjitter ox oy (jitter ox oy X) = X.
Proof.
  unfold unjitter, jitter.
  rewrite np_roll_1_2_comm, np_roll_inverse. apply np_roll_inverse.
Qed.

(** ** Sums of arrays *)

Lemma has_shape_foldl_tadd {d} (s : list nat) (a : tensor d) (ts : list (tensor d)) :
  has_shape s a → Forall (has_shape s) ts → has_shape s (foldl tadd a ts).
Proof.
  intros Ha Hts. revert a Ha. induction Hts as [|t ts Ht _ IH]; intros a Ha; [done|].
  simpl. apply IH. by apply has_shape_tzip.
Qed.

Lemma tadd_zero_r {d} (s : list nat) (a z : tensor d) :
  has_shape s a → has_shape s z → tall (λ x, x = 0) z → tadd a z = a.
Proof.
  revert s a z. induction d as [|d IH]; intros s a z Ha Hz H0.
  - simpl in *. unfold tadd. simpl. rewrite H0. lra.
  - destruct s as [|n s]; [done|].
    apply has_shape_cons in Ha as [Hla Hfa]. apply has_shape_cons in Hz as [Hlz Hfz].
    simpl in H0. subst n. revert z Hlz Hfz H0.
    induction Hfa as [|x a Hx Hfa IHa]; intros [|y z] Hlz Hfz H0; try done.
    inversion Hfz; subst. inversion H0; subst. unfold tadd in *. simpl.
    f_equal; [by eapply IH | apply IHa; auto].
Qed.

Lemma tadd_zero_l {d} (s : list nat) (a z : tensor d) :
  has_shape s a → has_shape s z → tall (λ x, x = 0) z → tadd z a = a.
Proof.
  revert s a z. induction d as [|d IH]; intros s a z Ha Hz H0.
  - simpl in *. unfold tadd. simpl. rewrite H0. lra.
  - destruct s as [|n s]; [done|].
    apply has_shape_cons in Ha as [Hla Hfa]. apply has_shape_cons in Hz as [Hlz Hfz].
    simpl in H0. subst n. revert z Hlz Hfz H0.
    induction Hfa as [|x a Hx Hfa IHa]; intros [|y z] Hlz Hfz H0; try done.
    inversion Hfz; subst. inversion H0; subst. unfold tadd in *. simpl.
    f_equal; [by eapply IH | apply IHa; auto].
Qed.

(** Adding arrays that are zero everywhere changes nothing. *)
Lemma foldl_tadd_zeros {d} (s : list nat) (a : tensor d) (zs : list (tensor d)) :
  has_shape s a → Forall (λ z, has_shape s z ∧ tall (λ x, x = 0) z) zs →
  foldl tadd a zs = a.
Proof.
  intros Ha Hzs. induction Hzs as [|z zs [Hz H0] _ IH]; [done|].
  simpl. by rewrite (tadd_zero_r s).
Qed.

(** A sum in which only the term at position [i] is not zero is that term. *)
Lemma foldl_tadd_single {d} (s : list nat) (a : tensor d) (us : list (tensor d))
    (i : nat) (u : tensor d) :
  has_shape s a → tall (λ x, x = 0) a →
  Forall (has_shape s) us → us !! i = Some u →
  (∀ j v, j ≠ i → us !! j = Some v → tall (λ x, x = 0) v) →
  foldl tadd a us = u.
Proof.
  intros Ha H0 Hus. revert a i Ha H0.
  induction Hus as [|v us Hv Hus IH]; intros a i Ha H0 Hi Hz; [done|].
  destruct i as [|i]; simpl in *.
  - injection Hi as ->. rewrite (tadd_zero_l s) by done.
    apply (foldl_tadd_zeros s); [done|].
    apply Forall_lookup. intros j w Hj. split.
    + by eapply (proj1 (Forall_lookup _ _) Hus).
    + by apply (Hz (S j) w).
  - assert (tall (λ x, x = 0) v) as Hv0 by (by apply (Hz 0%nat v)).
    rewrite (tadd_zero_r s) by done.
    apply (IH a i); [done..|].
    intros j w Hne Hj. apply (Hz (S j) w); [lia | done].
Qed.

(** Taking the slice of one example commutes with summing. *)
Lemma foldl_tadd_lookup {d} (a : list (tensor d)) (ts : list (list (tensor d)))
    (i : nat) (u : tensor d) (us : list (tensor d)) :
  a !! i = Some u → Forall2 (λ t v, t !! i = Some v) ts us →
  foldl (tadd (d:=S d)) a ts !! i = Some (foldl tadd u us).
Proof.
  intros Ha Hts. revert a u Ha. induction Hts as [|t v ts us Ht _ IH]; intros a u Ha; [done|].
  simpl. apply IH. change (zip_with (tzip Rplus) a t !! i = Some (tzip Rplus u v)).
  rewrite lookup_zip_with, Ha. simpl. by rewrite Ht.
Qed.

Lemma sum_single {d} (s : list nat) (us : list (tensor d)) (i : nat) (u : tensor d) :
  Forall (has_shape s) us → us !! i = Some u →
  (∀ j v, j ≠ i → us !! j = Some v → tall (λ x, x = 0) v) →
  match us with [] => u | t :: ts => foldl tadd t ts end = u.
Proof.
  intros Hus Hi Hz. destruct us as [|t ts]; [done|].
  inversion Hus as [|? ? Ht Hts]; subst.
  destruct i as [|i]; simpl in Hi.
  - injection Hi as ->. apply (foldl_tadd_zeros s); [done|].
    apply Forall_lookup. intros j w Hj. split.
    + by eapply (proj1 (Forall_lookup _ _) Hts).
    + by apply (Hz (S j) w).
  - apply (foldl_tadd_single s _ _ i); [done| |done..|].
    + by apply (Hz 0%nat t).
    + intros j w Hne Hj. apply (Hz (S j) w); [lia | done].
Qed.

Lemma slices_exist {A} (N i : nat) (ts : list (list A)) :
  (i < N)%nat → Forall (λ t, length t = N) ts →
  ∃ us, Forall2 (λ t v, t !! i = Some v) ts us.
Proof.
  intros Hi Hts. induction Hts as [|t ts Ht _ [us IH]]; [by exists []|].
  destruct (lookup_lt_is_Some_2 t i) as [u Hu]; [lia|].
  exists (u :: us). by constructor.
Qed.

(** ** Results of [mapM] and of the reductions *)

Lemma mapM_result_ok {A B} (f : A → result B) (P : B → Prop) (l : list A) :
  Forall (λ x, ∃ r, f x = Ok r ∧ P r) l →
  ∃ rs, mapM f l = Ok rs ∧ length rs = length l ∧ Forall P rs.
Proof.
  induction 1 as [|x l (r & Hr & HP) _ (rs & Hrs & Hlen & HPs)]; [by exists []|].
  exists (r :: rs). simpl. rewrite Hr. simpl. rewrite Hrs. simpl.
  split; [done|]. split; [by rewrite Hlen | by constructor].
Qed.

Lemma mapM_result_lookup {A B} (f : A → result B) (l : list A) (rs : list B)
    (i : nat) (x : A) :
  mapM f l = Ok rs → l !! i = Some x → ∃ r, rs !! i = Some r ∧ f x = Ok r.
Proof.
  revert rs i. induction l as [|a l IH]; intros rs i Hm Hi; [done|].
  simpl in Hm. destruct (f a) as [b| |] eqn:Hb; simpl in Hm; try done.
  destruct (mapM f l) as [bs| |] eqn:Hbs; simpl in Hm; try done.
  injection Hm as <-. destruct i as [|i]; simpl in *.
  - injection Hi as <-. eauto.
  - by apply IH.
Qed.

Lemma foldl_Rmax_ge (x : R) (l : list R) : x <= foldl Rmax x l.
Proof.
  revert x. induction l as [|y l IH]; intros x; simpl; [lra|].
  etransitivity; [apply (Rmax_l x y) | apply IH].
Qed.

(** Reducing a last axis of length [c + 1] removes it and keeps
    nonnegative entries nonnegative. *)
Lemma np_max_last_ok {d} (s : list nat) (c : nat) (t : tensor (S d)) :
  length s = d → has_shape (s ++ [S c]) t → tall (λ v, 0 <= v) t →
  ∃ r, np_max_last t = Ok r ∧ has_shape s r ∧ tall (λ v, 0 <= v) r.
Proof.
  revert s t. induction d as [|d IH]; intros s t Hs Ht Hpos.
  - destruct s; [|done]. simpl in Ht. apply has_shape_cons in Ht as [Hl _].
    destruct t as [|x l]; [done|]. exists (foldl Rmax x l). simpl.
    split; [done|]. split; [done|]. inversion Hpos; subst.
    etransitivity; [|apply foldl_Rmax_ge]. done.
  - destruct s as [|n s]; [done|]. simpl in Hs. injection Hs as Hs.
    change ((n :: s) ++ [S c]) with (n :: (s ++ [S c])) in Ht.
    apply has_shape_cons in Ht as [Hl Hf]. simpl in Hpos.
    destruct (mapM_result_ok (np_max_last (d:=d))
                (λ r, has_shape s r ∧ tall (λ v, 0 <= v) r) t) as (rs & Hrs & Hlen & HP).
    { apply Forall_forall. intros x Hx.
      destruct (IH s x) as (r & ? & ? & ?); [done| | |by eauto].
      - by eapply (proj1 (Forall_forall _ _) Hf).
      - by eapply (proj1 (Forall_forall _ _) Hpos). }
    exists rs. split; [exact Hrs|]. split.
    + apply has_shape_cons. split; [congruence|].
      eapply Forall_impl; [exact HP|]. by intros ? [? ?].
    + simpl. eapply Forall_impl; [exact HP|]. by intros ? [? ?].
Qed.

(** ** Saliency maps *)

Lemma has_shape_grad_image (m : SqueezeNet) (e : scalar_op) (s : list nat) (X : tensor 4) :
  tf_contract m → has_shape s X → has_shape s (grad_image m e X).
Proof.
  intros [_ Hg] HX. induction e as [i k| |a IHa b IHb|c a IHa]; simpl.
  - by apply Hg.
  - by apply has_shape_tmap.
  - by apply has_shape_tzip.
  - by apply has_shape_tmap.
Qed.

Lemma has_shape_tsum_like (s : list nat) (X : tensor 4) (ts : list (tensor 4)) :
  has_shape s X → Forall (has_shape s) ts → has_shape s (tsum_like X ts).
Proof.
  intros HX Hts. destruct Hts as [|t ts Ht Hts]; unfold tsum_like.
  - by apply has_shape_tmap.
  - by apply (has_shape_foldl_tadd (d:=4)).
Qed.

Lemma saliency_unfold (X : tensor 4) (y : list Z) (m : SqueezeNet) :
  length y = length X → Forall (λ k, (0 <= k < 1000)%Z) y →
  compute_saliency_maps X y m =
    np_max_last (tabs (tsum_like X
      (List.map (λ e, grad_image m e X) (zip_with Score (seq 0 (length X)) y)))).
Proof.
  intros Hy Hk. unfold compute_saliency_maps, correct_scores.
  destruct (decide (length y = length X)); [|done].
  assert (forallb (λ k, (0 <=? k)%Z && (k <? Z.of_nat num_classes)%Z) y = true) as ->; [|done].
  apply forallb_forall. intros k Hin. apply list_elem_of_In in Hin.
  pose proof (proj1 (Forall_forall _ _) Hk k Hin) as Hr. simpl in Hr.
  apply andb_true_iff. split; [apply Z.leb_le | apply Z.ltb_lt]; unfold num_classes; lia.
Qed.

(** The array that is reduced over the channels has the shape of [X] and
    no negative entry. *)
Lemma saliency_abs_gradient (m : SqueezeNet) (s : list nat) (X : tensor 4) (y : list Z) :
  tf_contract m → has_shape s X →
  has_shape s (tabs (tsum_like X
    (List.map (λ e, grad_image m e X) (zip_with Score (seq 0 (length X)) y)))) ∧
  tall (λ v, 0 <= v) (tabs (tsum_like X
    (List.map (λ e, grad_image m e X) (zip_with Score (seq 0 (length X)) y)))).
Proof.
  intros Hm HX. split.
  - apply has_shape_tmap, has_shape_tsum_like; [done|].
    apply Forall_fmap, Forall_forall. intros e _. by apply has_shape_grad_image.
  - apply (tall_tmap (λ _, True)); [intros; apply Rabs_pos | by apply tall_true].
Qed.

(** C9: for every batch [X] of shape (N, H, W, 3), with one label per
    example, [compute_saliency_maps] returns an array of shape (N, H, W)
    (the channel axis is reduced away) all of whose entries are
    nonnegative. *)
Theorem saliency_shape_nonneg (m : SqueezeNet) (N H W : nat) (X : tensor 4) (y : list Z) :
  tf_contract m → has_shape [N; H; W; 3%nat] X →
  length y = N → Forall (λ k, (0 <= k < 1000)%Z) y →
  ∃ S, compute_saliency_maps X y m = Ok S ∧
       has_shape [N; H; W] S ∧ tall (λ v, 0 <= v) S.
Proof.
  intros Hm HX Hy Hk.
  assert (length X = N) as HN by (by apply has_shape_cons in HX as [? _]).
  rewrite saliency_unfold by (done || congruence).
  destruct (saliency_abs_gradient m _ X y Hm HX) as [Hshape Hpos].
  by apply (np_max_last_ok [N; H; W] 2).
Qed.

Lemma correct_scores_lookup (m : SqueezeNet) (X : tensor 4) (N : nat) (y : list Z)
    (j : nat) (T : tensor 4) :
  List.map (λ e, grad_image m e X) (zip_with Score (seq 0 N) y) !! j = Some T →
  ∃ yj, y !! j = Some yj ∧ T = dscore m j yj X.
Proof.
  change (List.map (λ e, grad_image m e X)) with (fmap (M:=list) (λ e, grad_image m e X)).
  rewrite list_lookup_fmap, lookup_zip_with. intros H.
  destruct (seq 0 N !! j) as [j'|] eqn:Hj; [|done]. simpl in H.
  destruct (y !! j) as [yj|] eqn:Hy; [|done]. simpl in H.
  apply lookup_seq in Hj as [-> _]. injection H as <-. by exists yj.
Qed.

(** The gradient that the saliency map is taken from: at example [i] it
    is the derivative of the score of the correct class of example [i]. *)
Lemma saliency_gradient_slice (m : SqueezeNet) (N H W : nat) (X : tensor 4)
    (y : list Z) (i : nat) (yi : Z) :
  tf_contract m → per_example m → has_shape [N; H; W; 3%nat] X → length y = N →
  y !! i = Some yi →
  ∃ Gi : tensor 3, dscore m i yi X !! i = Some Gi ∧
        tsum_like X (List.map (λ e, grad_image m e X) (zip_with Score (seq 0 N) y)) !! i
        = Some Gi.
Proof.
  intros Hm Hpe HX Hy Hi.
  assert (i < N)%nat as HiN by (rewrite <- Hy; by eapply lookup_lt_Some).
  set (Ts := List.map (λ e, grad_image m e X) (zip_with Score (seq 0 N) y)).
  assert (Forall (has_shape [N; H; W; 3%nat]) Ts) as HTs.
  { apply Forall_fmap, Forall_forall. intros e _. by apply has_shape_grad_image. }
  assert (Ts !! i = Some (dscore m i yi X)) as HTi.
  { subst Ts. change (List.map (λ e, grad_image m e X)) with (fmap (M:=list) (λ e, grad_image m e X)).
    rewrite list_lookup_fmap, lookup_zip_with, lookup_seq_lt by done. simpl. by rewrite Hi. }
  destruct (slices_exist N i Ts HiN) as [Us HUs].
  { eapply Forall_impl; [exact HTs|]. intros T HT. by apply has_shape_cons in HT as [? _]. }
  destruct (Forall2_lookup_l _ _ _ _ _ HUs HTi) as (Gi & HUi & HGi).
  exists Gi. split; [done|].
  assert (Forall (has_shape (d:=3) [H; W; 3%nat]) Us) as HsU.
  { apply Forall_lookup. intros j v Hv.
    destruct (Forall2_lookup_r _ _ _ _ _ HUs Hv) as (T & HT & HTv).
    pose proof (proj1 (Forall_lookup _ _) HTs j T HT) as HsT.
    apply has_shape_cons in HsT as [_ HsT].
    by apply (proj1 (Forall_lookup _ _) HsT i v). }
  assert (∀ j v, j ≠ i → Us !! j = Some v → tall (d:=3) (λ x, x = 0) v) as Hz.
  { intros j v Hne Hv.
    destruct (Forall2_lookup_r _ _ _ _ _ HUs Hv) as (T & HT & HTv).
    apply correct_scores_lookup in HT as (yj & _ & ->).
    eapply (Hpe i j); [by apply not_eq_sym | exact HTv]. }
  pose proof (sum_single (d:=3) _ Us i Gi HsU HUi Hz) as Hsum.
  destruct HUs as [|T0 U0 Ts' Us' HT0 HTs']; [done|].
  unfold tsum_like. rewrite <- Hsum.
  exact (foldl_tadd_lookup (d:=3) T0 Ts' i U0 Us' HT0 HTs').
Qed.

Lemma tabs_lookup {d} (t : list (tensor d)) (i : nat) (x : tensor d) :
  t !! i = Some x → tabs (d:=S d) t !! i = Some (tabs x).
Proof.
  intros H. unfold tabs. simpl. change (List.map (tmap Rabs) t) with (tmap Rabs <$> t).
  by rewrite list_lookup_fmap, H.
Qed.

Lemma amax3 (a b c : R) : amax [a; b; c] = Ok (Rmax (Rmax a b) c).
Proof. done. Qed.

(** C1: for every batch [X] of shape (N, H, W, 3) and labels [y] of shape
    (N,), the saliency map of example [i] is obtained from the gradient
    [Gi] of the score of its correct class, [scores[i, y[i]]], with
    respect to its pixels: the absolute value is taken entry by entry and
    then the maximum over the three channels.  (The network treats the
    examples of a batch independently, [per_example].) *)
Theorem saliency_abs_max_of_gradient (m : SqueezeNet) (N H W : nat) (X : tensor 4)
    (y : list Z) :
  tf_contract m → per_example m → has_shape [N; H; W; 3%nat] X →
  length y = N → Forall (λ k, (0 <= k < 1000)%Z) y →
  ∃ S, compute_saliency_maps X y m = Ok S ∧
    ∀ i yi, y !! i = Some yi →
      ∃ (Gi : tensor 3) (Si : tensor 2),
        dscore m i yi X !! i = Some Gi ∧ S !! i = Some Si ∧
        np_max_last (tabs Gi) = Ok Si ∧
        ∀ h w (row : tensor 2) (px : tensor 1), Gi !! h = Some row → row !! w = Some px →
          ∃ a b c (srow : tensor 1), px = [a; b; c] ∧ Si !! h = Some srow ∧
            srow !! w = Some (Rmax (Rmax (Rabs a) (Rabs b)) (Rabs c)).
Proof.
  intros Hm Hpe HX Hy Hk.
  assert (length X = N) as HN by (by apply has_shape_cons in HX as [? _]).
  rewrite saliency_unfold by (done || congruence).
  destruct (saliency_abs_gradient m _ X y Hm HX) as [Hshape Hpos].
  destruct (np_max_last_ok [N; H; W] 2 _ eq_refl Hshape Hpos) as (S & HS & _).
  exists S. split; [done|]. intros i yi Hi. rewrite HN in HS.
  destruct (saliency_gradient_slice m N H W X y i yi Hm Hpe HX Hy Hi) as (Gi & HGi & Hsl).
  assert (tabs (d:=4) (tsum_like X (List.map (λ e, grad_image m e X)
            (zip_with Score (seq 0 N) y))) !! i = Some (tabs Gi)) as Habs.
  { by apply (tabs_lookup (d:=3)). }
  destruct (mapM_result_lookup _ _ _ _ _ HS Habs) as (Si & HSi & Hmax).
  exists Gi, Si. do 3 (split; [done|]).
  intros h w row px Hrow Hpx.
  assert (has_shape [H; W; 3%nat] Gi) as HsG.
  { destruct Hm as [_ Hg]. pose proof (Hg i yi _ X HX) as HsT.
    apply has_shape_cons in HsT as [_ HsT].
    by apply (proj1 (Forall_lookup _ _) HsT i Gi). }
  apply has_shape_cons in HsG as [_ HsG].
  pose proof (proj1 (Forall_lookup _ _) HsG h row Hrow) as Hsrow.
  apply has_shape_cons in Hsrow as [_ Hsrow].
  pose proof (proj1 (Forall_lookup _ _) Hsrow w px Hpx) as Hspx.
  apply has_shape_cons in Hspx as [Hlen _].
  destruct px as [|a [|b [|c [|]]]]; try done.
  assert (tabs (d:=3) Gi !! h = Some (tabs (d:=2) row)) as Hh.
  { by apply (tabs_lookup (d:=2)). }
  destruct (mapM_result_lookup _ _ _ _ _ Hmax Hh) as (srow & Hsr & Hmrow).
  assert (tabs (d:=2) row !! w = Some [Rabs a; Rabs b; Rabs c]) as Hw.
  { by apply (tabs_lookup (d:=1) row w [a; b; c]). }
  destruct (mapM_result_lookup _ _ _ _ _ Hmrow Hw) as (v & Hv & Hamax).
  change (np_max_last (d:=0)) with amax in Hamax. rewrite amax3 in Hamax.
  injection Hamax as <-. by exists a, b, c, srow.
Qed.

(** ** Loading the model *)

(** C4, as the code has it: loading is guarded.  When the checkpoint file
    does not exist the cell raises [ValueError] itself; only when it
    exists does it go on to construct the network. *)
Theorem load_pretrained_guarded {M} (restore : string → result M) (files : gset string) :
  (SAVE_PATH ∉ files →
     load_pretrained restore files = Raise (ValueError "You need to download SqueezeNet!")) ∧
  (SAVE_PATH ∈ files → load_pretrained restore files = restore SAVE_PATH).
Proof.
  unfold load_pretrained. split; intros H.
  - by rewrite bool_decide_eq_false_2.
  - by rewrite bool_decide_eq_true_2.
Qed.

(** C4 fails as stated: with no checkpoint file the loading cell raises an
    error of its own instead of proceeding to the constructor. *)
Lemma load_pretrained_missing_checkpoint :
  load_pretrained (M:=string) Ok ∅ = Raise (ValueError "You need to download SqueezeNet!") ∧
  load_pretrained (M:=string) Ok ∅ ≠ Ok SAVE_PATH.
Proof. split; [done|]. by intros H. Qed.

(** ** Fooling images *)

Lemma tmap_ext {d} (f g : R → R) (t : tensor d) :
  (∀ x, f x = g x) → tmap f t = tmap g t.
Proof.
  intros Hfg. induction d as [|d IH]; simpl; [done|].
  induction t as [|x t IHt]; simpl; [done|]. by rewrite IH, IHt.
Qed.

Lemma sumsq_nonneg {d} (t : tensor d) : 0 <= sumsq t.
Proof.
  induction d as [|d IH]; simpl; [nra|].
  induction t as [|x t IHt]; simpl; [lra|]. specialize (IH x). lra.
Qed.

Lemma sumsq_tmap_scale {d} (c : R) (t : tensor d) :
  sumsq (tmap (Rmult c) t) = c * c * sumsq t.
Proof.
  induction d as [|d IH]; simpl; [ring|].
  induction t as [|x t IHt]; simpl; [ring|]. rewrite IH, IHt. ring.
Qed.

(** Dividing an array by its own norm gives an array of norm 1, unless
    the norm is zero. *)
Lemma tf_norm_normalised {d} (t : tensor d) :
  tf_norm t ≠ 0 → tf_norm (tdiv t (tf_norm t)) = 1.
Proof.
  intros Hn. unfold tf_norm in *. unfold tdiv.
  rewrite (tmap_ext _ (Rmult (/ sqrt (sumsq t)))) by (intros; unfold Rdiv; ring).
  rewrite sumsq_tmap_scale.
  pose proof (sumsq_nonneg t) as Hs.
  replace (/ sqrt (sumsq t) * / sqrt (sumsq t) * sumsq t) with 1; [apply sqrt_1|].
  rewrite <- (sqrt_sqrt (sumsq t)) at 3 by done. field. done.
Qed.

Lemma fooling_dX_unfold (m : SqueezeNet) (target_y : Z) (X : tensor 4) :
  fooling_dX m target_y X
  = [tdiv (dscore m 0 target_y X) (tf_norm (dscore m 0 target_y X))].
Proof.
  unfold fooling_dX, tf_gradients, tf_norm. simpl.
  by rewrite Rplus_0_r.
Qed.

Lemma np_argmax_ok (n : nat) (scores : tensor 2) :
  has_shape [S n; num_classes] scores → ∃ y, np_argmax scores = Ok y.
Proof.
  intros H. apply has_shape_cons in H as [Hl Hf].
  destruct scores as [|r rest]; [done|].
  inversion Hf as [|? ? Hr _]; subst. apply has_shape_cons in Hr as [Hr _].
  destruct r as [|x r]; [done|]. unfold np_argmax. simpl. eauto.
Qed.

Lemma predict_ok (m : SqueezeNet) (l : loc) (σ : heap) (s : list nat) (X : tensor 4) :
  tf_contract m → σ !! l = Some X → has_shape (1%nat :: s) X →
  ∃ y, predict m l σ = Ok y.
Proof.
  intros [Hc _] Hl HX. unfold predict, deref. rewrite Hl. simpl.
  apply has_shape_cons in HX as [HX _].
  apply (np_argmax_ok 0). pose proof (Hc X) as HcX.
  apply has_shape_cons in HcX as [HcL HcF]. apply has_shape_cons.
  split; [|done]. rewrite HcL. exact HX.
Qed.

Lemma has_shape_fooling_step (m : SqueezeNet) (target_y : Z) (s : list nat) (X : tensor 4) :
  tf_contract m → has_shape s X → has_shape s (tadd X (fooling_increment m target_y X)).
Proof.
  intros Hm HX. apply has_shape_tzip; [done|].
  apply has_shape_tmap. destruct Hm as [_ Hg]. by apply Hg.
Qed.

Lemma bind_Ok {A B} (a : A) (f : A → result B) : Ok a ≫= f = f a.
Proof. done. Qed.

Lemma deref_Some (l : loc) (σ : heap) (X : tensor 4) : σ !! l = Some X → deref l σ = Ok X.
Proof. intros H. unfold deref. by rewrite H. Qed.

Lemma py_getitem_ok {A} (l : list A) (k : Z) :
  (0 <= k < Z.of_nat (length l))%Z → ∃ x, py_getitem l k = Ok x.
Proof.
  intros Hk. unfold py_getitem.
  destruct (Z.ltb_spec k 0) as [?|_]; [lia|].
  destruct (Z.leb_spec 0 k) as [_|?]; [|lia].
  destruct (Z.ltb_spec k (Z.of_nat (length l))) as [_|?]; [|lia]. cbn [andb].
  destruct (lookup_lt_is_Some_2 l (Z.to_nat k)) as [x ->]; [lia | by eauto].
Qed.

(** On the scores of a single example, [np.argmax] and the look-up of the
    score of a valid class succeed. *)
Lemma scores_ok (scores : tensor 2) (target_y : Z) :
  has_shape [1%nat; num_classes] scores → (0 <= target_y < 1000)%Z →
  ∃ y v, np_argmax scores = Ok y ∧ np_getitem2 scores 0 target_y = Ok v.
Proof.
  intros Hs Ht. destruct (np_argmax_ok 0 scores Hs) as [y Hy].
  apply (has_shape_cons (d:=1)) in Hs as [Hl Hf].
  destruct scores as [|row [|]]; try done.
  inversion Hf as [|? ? Hrow _]; subst. apply (has_shape_cons (d:=0)) in Hrow as [Hrow _].
  destruct (py_getitem_ok (row : list R) target_y) as [v Hv].
  { change (length (row : list R) = num_classes) in Hrow. rewrite Hrow.
    unfold num_classes. lia. }
  exists y, v. split; [done|]. unfold np_getitem2.
  change (py_getitem [row] 0) with (Ok (A:=tensor 1) row). by rewrite bind_Ok.
Qed.

Lemma classifier_shape_one (m : SqueezeNet) (s : list nat) (X : tensor 4) :
  tf_contract m → has_shape (1%nat :: s) X → has_shape [1%nat; num_classes] (classifier m X).
Proof.
  intros [Hc _] HX. apply has_shape_cons in HX as [HX _].
  pose proof (Hc X) as HcX. apply has_shape_cons in HcX as [HcL HcF].
  apply has_shape_cons. split; [|done]. rewrite HcL. exact HX.
Qed.

Lemma fooling_body_ok (m : SqueezeNet) (target_y : Z) (lf : loc) (σ : heap)
    (s : list nat) (X : tensor 4) :
  tf_contract m → (0 <= target_y < 1000)%Z →
  σ !! lf = Some X → has_shape (1%nat :: s) X →
  ∃ y, fooling_body m target_y lf σ
       = Ok (y, <[lf := tadd X (fooling_increment m target_y X)]> σ) ∧
       np_argmax (classifier m (tadd X (fooling_increment m target_y X))) = Ok y.
Proof.
  intros Hm Ht Hl HX. unfold fooling_body. rewrite (deref_Some _ _ _ Hl), bind_Ok.
  rewrite fooling_dX_unfold. unfold unpack_first. rewrite bind_Ok.
  unfold np_iadd. rewrite (deref_Some _ _ _ Hl), !bind_Ok.
  fold (fooling_increment m target_y X).
  rewrite (deref_Some _ _ (tadd X (fooling_increment m target_y X)))
    by apply lookup_insert_eq.
  rewrite bind_Ok.
  destruct (scores_ok (classifier m (tadd X (fooling_increment m target_y X))) target_y)
    as (y & v & Hy & Hv); [|done|].
  { apply (classifier_shape_one m s); [done | by apply has_shape_fooling_step]. }
  exists y. cbv zeta. by rewrite Hy, bind_Ok, Hv, bind_Ok.
Qed.

(** The loop stops within the iterations that are left, touches no array
    but [X_fooling], and when it stops early the prediction is the target. *)
Lemma fooling_loop_terminates (m : SqueezeNet) (target_y : Z) (lf : loc) (s : list nat)
    (fuel : nat) (i y : Z) (σ : heap) (X : tensor 4) :
  tf_contract m → (0 <= target_y < 1000)%Z →
  (0 <= i)%Z → (n_iterations - i <= Z.of_nat fuel)%Z →
  σ !! lf = Some X → has_shape (1%nat :: s) X →
  ∃ i' y' σ', fooling_loop fuel m target_y lf i y σ = Ok (i', y', σ') ∧
    (i <= i')%Z ∧ (i' <= Z.max i n_iterations)%Z ∧
    ((i' < n_iterations)%Z → y' = target_y) ∧
    (∀ l, l ≠ lf → σ' !! l = σ !! l).
Proof.
  intros Hm Ht. revert i y σ X.
  induction fuel as [|fuel IH]; intros i y σ X Hi Hfuel Hl HX.
  - simpl. destruct (Z.ltb_spec i n_iterations) as [Hlt|Hge]; [lia|]. simpl.
    exists i, y, σ. split; [done|]. split; [lia|]. split; [lia|]. split; [lia|done].
  - simpl. destruct (Z.ltb_spec i n_iterations) as [Hlt|Hge]; simpl.
    + destruct (Z.eqb_spec y target_y) as [Heq|Hne]; simpl.
      * exists i, y, σ. split; [done|]. split; [lia|]. split; [lia|]. split; done.
      * destruct (fooling_body_ok m target_y lf σ s X Hm Ht Hl HX) as [y1 [Hb _]].
        rewrite Hb, bind_Ok.
        destruct (IH (i + 1)%Z y1 (<[lf := tadd X (fooling_increment m target_y X)]> σ)
                    (tadd X (fooling_increment m target_y X)))
          as (i' & y' & σ' & Hr & H1 & H2 & H3 & H4);
          [lia | lia | apply lookup_insert_eq | by apply has_shape_fooling_step |].
        exists i', y', σ'. split; [done|]. split; [lia|]. split; [lia|]. split; [done|].
        intros l Hne'. rewrite H4 by done. by apply lookup_insert_ne.
    + exists i, y, σ. split; [done|]. split; [lia|]. split; [lia|]. split; [lia|done].
Qed.

(** As soon as the prediction equals the target no further update is made. *)
Lemma fooling_loop_stops_at_target (m : SqueezeNet) (target_y : Z) (lf : loc)
    (fuel : nat) (i : Z) (σ : heap) :
  fooling_loop fuel m target_y lf i target_y σ = Ok (i, target_y, σ).
Proof.
  destruct fuel; simpl; rewrite Z.eqb_refl, andb_false_r; done.
Qed.

Lemma tf_class_index_ok (k : Z) : (0 <= k < 1000)%Z → tf_class_index k = Ok k.
Proof.
  intros Hk. unfold tf_class_index.
  destruct (Z.leb_spec (- Z.of_nat num_classes) k) as [_|H]; [|unfold num_classes in H; lia].
  destruct (Z.ltb_spec k (Z.of_nat num_classes)) as [_|H]; [done|unfold num_classes in H; lia].
Qed.

Lemma fooling_run_terminates (m : SqueezeNet) (target_y : Z) (lX : loc) (σ : heap)
    (s : list nat) (X : tensor 4) (fuel : nat) :
  tf_contract m → (0 <= target_y < 1000)%Z →
  σ !! lX = Some X → has_shape (1%nat :: s) X →
  (n_iterations <= Z.of_nat fuel)%Z →
  ∃ lf i y σ', fooling_run fuel lX target_y m σ = Ok (lf, i, y, σ') ∧
    (0 <= i <= n_iterations)%Z ∧ ((i < n_iterations)%Z → y = target_y) ∧
    (lf ∉ dom σ) ∧ (∀ l, l ≠ lf → σ' !! l = σ !! l).
Proof.
  intros Hm Ht Hl HX Hfuel. unfold fooling_run, np_copy.
  rewrite (deref_Some _ _ _ Hl), !bind_Ok.
  rewrite (tf_class_index_ok target_y) by lia. rewrite bind_Ok.
  set (lf := fresh (dom σ)).
  assert (lf ∉ dom σ) as Hfresh by apply is_fresh.
  destruct (predict_ok m lf (<[lf := X]> σ) s X) as [y Hy];
    [done | apply lookup_insert_eq | done |].
  rewrite Hy, bind_Ok.
  destruct (fooling_loop_terminates m target_y lf s fuel 0 y (<[lf := X]> σ) X)
    as (i' & y' & σ' & Hr & H1 & H2 & H3 & H4);
    [done | done | lia | lia | apply lookup_insert_eq | done |].
  rewrite Hr, bind_Ok. exists lf, i', y', σ'.
  split; [done|]. split; [unfold n_iterations in *; lia|]. split; [done|]. split; [done|].
  intros l Hne. rewrite H4 by done. by apply lookup_insert_ne.
Qed.

Lemma has_shape_fooling_image_after (m : SqueezeNet) (target_y : Z) (s : list nat)
    (k : nat) (X : tensor 4) :
  tf_contract m → has_shape s X → has_shape s (fooling_image_after m target_y k X).
Proof.
  intros Hm. revert X. induction k as [|k IH]; intros X HX; [done|].
  cbn [fooling_image_after]. by apply IH, has_shape_fooling_step.
Qed.

(** The loop makes [k] passes, where [k] is the first number of update
    steps after which the prediction is the target, or what is left of
    the 100 iterations if that comes first. *)
Lemma fooling_loop_trajectory (m : SqueezeNet) (target_y : Z) (lf : loc) (s : list nat)
    (fuel : nat) (i y : Z) (σ : heap) (X : tensor 4) :
  tf_contract m → (0 <= target_y < 1000)%Z →
  (0 <= i)%Z → (n_iterations - i <= Z.of_nat fuel)%Z →
  σ !! lf = Some X → has_shape (1%nat :: s) X →
  np_argmax (classifier m X) = Ok y →
  ∃ (k : nat) y' σ',
    fooling_loop fuel m target_y lf i y σ = Ok ((i + Z.of_nat k)%Z, y', σ') ∧
    (i + Z.of_nat k <= Z.max i n_iterations)%Z ∧
    σ' !! lf = Some (fooling_image_after m target_y k X) ∧
    np_argmax (classifier m (fooling_image_after m target_y k X)) = Ok y' ∧
    ((i + Z.of_nat k < n_iterations)%Z → y' = target_y) ∧
    (∀ j, (j < k)%nat →
       np_argmax (classifier m (fooling_image_after m target_y j X)) ≠ Ok target_y).
Proof.
  intros Hm Ht. revert i y σ X.
  assert (∀ (i y : Z) (σ : heap) (X : tensor 4),
            σ !! lf = Some X → np_argmax (classifier m X) = Ok y →
            ((i < n_iterations)%Z → y = target_y) →
            ∃ (k : nat) y' σ',
              Ok (i, y, σ) = Ok ((i + Z.of_nat k)%Z, y', σ') ∧
              (i + Z.of_nat k <= Z.max i n_iterations)%Z ∧
              σ' !! lf = Some (fooling_image_after m target_y k X) ∧
              np_argmax (classifier m (fooling_image_after m target_y k X)) = Ok y' ∧
              ((i + Z.of_nat k < n_iterations)%Z → y' = target_y) ∧
              (∀ j, (j < k)%nat →
                 np_argmax (classifier m (fooling_image_after m target_y j X))
                 ≠ Ok target_y)) as Hstop.
  { intros i y σ X Hl Hy Hi. exists 0%nat, y, σ. rewrite Z.add_0_r.
    split; [done|]. split; [lia|]. split; [done|]. split; [done|]. split; [done|].
    intros j Hj. lia. }
  induction fuel as [|fuel IH]; intros i y σ X Hi Hfuel Hl HX Hy.
  - simpl. destruct (Z.ltb_spec i n_iterations) as [Hlt|Hge]; [lia|]. simpl.
    apply Hstop; [done | done | lia].
  - simpl. destruct (Z.ltb_spec i n_iterations) as [Hlt|Hge]; simpl.
    + destruct (Z.eqb_spec y target_y) as [Heq|Hne]; simpl.
      * by apply Hstop.
      * destruct (fooling_body_ok m target_y lf σ s X Hm Ht Hl HX) as (y1 & Hb & Hy1).
        rewrite Hb, bind_Ok.
        destruct (IH (i + 1)%Z y1 (<[lf := tadd X (fooling_increment m target_y X)]> σ)
                    (tadd X (fooling_increment m target_y X)))
          as (k & y' & σ' & Hr & Hk & Hl' & Hy' & Hs' & Hbefore);
          [lia | lia | apply lookup_insert_eq | by apply has_shape_fooling_step | done |].
        exists (S k), y', σ'.
        replace (i + Z.of_nat (S k))%Z with (i + 1 + Z.of_nat k)%Z by lia.
        split; [done|]. split; [lia|]. split; [done|]. split; [done|]. split; [done|].
        intros [|j] Hj; cbn [fooling_image_after].
        -- rewrite Hy. by intros [= ->].
        -- apply Hbefore. lia.
    + apply Hstop; [done | done | lia].
Qed.

Lemma fooling_run_trajectory (m : SqueezeNet) (target_y : Z) (lX : loc) (σ : heap)
    (s : list nat) (X : tensor 4) (fuel : nat) :
  tf_contract m → (0 <= target_y < 1000)%Z →
  σ !! lX = Some X → has_shape (1%nat :: s) X →
  (n_iterations <= Z.of_nat fuel)%Z →
  ∃ (k : nat) y σ',
    fooling_run fuel lX target_y m σ = Ok (fresh (dom σ), Z.of_nat k, y, σ') ∧
    (Z.of_nat k <= n_iterations)%Z ∧
    σ' !! fresh (dom σ) = Some (fooling_image_after m target_y k X) ∧
    np_argmax (classifier m (fooling_image_after m target_y k X)) = Ok y ∧
    ((Z.of_nat k < n_iterations)%Z → y = target_y) ∧
    (∀ j, (j < k)%nat →
       np_argmax (classifier m (fooling_image_after m target_y j X)) ≠ Ok target_y).
Proof.
  intros Hm Ht Hl HX Hfuel. unfold fooling_run, np_copy.
  rewrite (deref_Some _ _ _ Hl), !bind_Ok.
  rewrite (tf_class_index_ok target_y) by lia. rewrite bind_Ok.
  set (lf := fresh (dom σ)).
  destruct (scores_ok (classifier m X) target_y) as (y & _ & Hy & _);
    [by apply (classifier_shape_one m s) | done |].
  unfold predict. rewrite (deref_Some _ _ X) by apply lookup_insert_eq.
  rewrite bind_Ok, Hy, bind_Ok.
  destruct (fooling_loop_trajectory m target_y lf s fuel 0 y (<[lf := X]> σ) X)
    as (k & y' & σ' & Hr & Hk & Hl' & Hy' & Hs' & Hbefore);
    [done | done | lia | lia | apply lookup_insert_eq | done | done |].
  rewrite Hr, bind_Ok, Z.add_0_l in *. exists k, y', σ'.
  split; [done|]. split; [unfold n_iterations in *; lia|]. done.
Qed.

(** C3: the loop of [make_fooling_image] always terminates, and it exits
    as soon as the prediction is the target.  For every image of shape
    (1, H, W, 3) and every target class the function returns; fuel for
    100 passes through the loop is always enough.  The counter [i] of
    update steps ends at most at [n_iterations = 100]; the returned array
    holds the image after [i] update steps and [y] is the prediction for
    it; if fewer than 100 steps were made this prediction equals
    [target_y]; and the prediction differed from [target_y] for the image
    after each smaller number of steps.  So [i] is the first number of
    steps after which the prediction equals [target_y], or 100. *)
Theorem make_fooling_image_terminates (m : SqueezeNet) (target_y : Z) (lX : loc)
    (σ : heap) (h w : nat) (X : tensor 4) (fuel : nat) :
  tf_contract m → (0 <= target_y < 1000)%Z →
  σ !! lX = Some X → has_shape [1; h; w; 3]%nat X →
  (100 ≤ fuel)%nat →
  ∃ lf i y σ',
    fooling_run fuel lX target_y m σ = Ok (lf, i, y, σ') ∧
    make_fooling_image fuel lX target_y m σ = Ok (lf, σ') ∧
    (0 <= i <= 100)%Z ∧ ((i < 100)%Z → y = target_y) ∧
    σ' !! lf = Some (fooling_image_after m target_y (Z.to_nat i) X) ∧
    np_argmax (classifier m (fooling_image_after m target_y (Z.to_nat i) X)) = Ok y ∧
    (∀ j : nat, (Z.of_nat j < i)%Z →
       np_argmax (classifier m (fooling_image_after m target_y j X)) ≠ Ok target_y).
Proof.
  intros Hm Ht Hl HX Hfuel.
  destruct (fooling_run_trajectory m target_y lX σ [h; w; 3%nat] X fuel Hm Ht Hl HX)
    as (k & y & σ' & Hr & Hk & Hlf & Hy & Hstop & Hbefore); [unfold n_iterations; lia|].
  exists (fresh (dom σ)), (Z.of_nat k), y, σ'. rewrite Nat2Z.id.
  split; [done|]. split; [unfold make_fooling_image; by rewrite Hr|].
  split; [unfold n_iterations in Hk; lia|]. split; [done|]. split; [done|]. split; [done|].
  intros j Hj. apply Hbefore. lia.
Qed.

(** C8: [make_fooling_image] never modifies its input.  The updates go to
    a copy stored at a new reference, so after the call the caller's
    array (and every other array that existed before) holds its original
    values. *)
Theorem make_fooling_image_preserves_input (m : SqueezeNet) (target_y : Z) (lX : loc)
    (σ : heap) (h w : nat) (X : tensor 4) :
  tf_contract m → (0 <= target_y < 1000)%Z →
  σ !! lX = Some X → has_shape [1; h; w; 3]%nat X →
  ∃ lf σ', make_fooling_image 100 lX target_y m σ = Ok (lf, σ') ∧
    σ' !! lX = Some X ∧ lf ≠ lX ∧ (∀ l, l ∈ dom σ → σ' !! l = σ !! l).
Proof.
  intros Hm Ht Hl HX.
  destruct (fooling_run_terminates m target_y lX σ _ X 100 Hm Ht Hl HX)
    as (lf & i & y & σ' & Hr & _ & _ & Hfresh & Hframe); [unfold n_iterations; lia|].
  assert (∀ l, l ∈ dom σ → l ≠ lf) as Hne by (intros l Hin ->; done).
  assert (lX ∈ dom σ) as HlX by (apply elem_of_dom; eauto).
  exists lf, σ'. unfold make_fooling_image. rewrite Hr.
  split; [done|]. split; [|split].
  - rewrite Hframe; [done | by apply Hne].
  - apply not_eq_sym. by apply Hne.
  - intros l Hin. apply Hframe. by apply Hne.
Qed.

Lemma fooling_increment_scale (m : SqueezeNet) (target_y : Z) (X : tensor 4) :
  fooling_increment m target_y X
  = tscale (IZR learning_rate / tf_norm (dscore m 0 target_y X)) (dscore m 0 target_y X).
Proof.
  unfold fooling_increment, tdiv, tscale, learning_rate.
  apply tmap_ext. intros x. unfold Rdiv. ring.
Qed.

(** C2, as the code has it: every update step adds to the image the
    gradient [g] of the target score scaled to [learning_rate * g / ||g||],
    and whenever [g] is not zero this increment has norm 1. *)
Theorem fooling_step_unit_norm (m : SqueezeNet) (target_y : Z) (lf : loc) (σ : heap)
    (h w : nat) (X : tensor 4) :
  tf_contract m → (0 <= target_y < 1000)%Z →
  σ !! lf = Some X → has_shape [1; h; w; 3]%nat X →
  tf_norm (dscore m 0 target_y X) ≠ 0 →
  ∃ y dX,
    dX = tscale (IZR learning_rate / tf_norm (dscore m 0 target_y X))
                (dscore m 0 target_y X) ∧
    unpack_first (fooling_dX m target_y X) = Ok dX ∧
    fooling_body m target_y lf σ = Ok (y, <[lf := tadd X dX]> σ) ∧
    tf_norm dX = 1.
Proof.
  intros Hm Ht Hl HX Hn.
  destruct (fooling_body_ok m target_y lf σ _ X Hm Ht Hl HX) as [y [Hy _]].
  exists y, (fooling_increment m target_y X).
  split; [apply fooling_increment_scale|].
  split; [by rewrite fooling_dX_unfold|]. split; [done|].
  by apply tf_norm_normalised.
Qed.

(** ** The example networks *)

Lemma has_shape_row (n : nat) (l : list R) : length l = n → has_shape (d:=1) [n] l.
Proof.
  intros H. apply (has_shape_cons (d:=0)). split; [done|].
  apply Forall_forall. by intros.
Qed.

Lemma dead_model_contract : tf_contract dead_model.
Proof.
  split.
  - intros X. apply (has_shape_cons (d:=1)). simpl. split; [by rewrite length_map|].
    apply Forall_fmap, Forall_forall. intros x _.
    apply (has_shape_row num_classes (replicate num_classes 0)), length_replicate.
  - intros i k s X HX. simpl. by apply has_shape_tmap.
Qed.

Lemma tall_zeros_like {d} (t : tensor d) : tall (λ x, x = 0) (tzeros_like t).
Proof. apply (tall_tmap (λ _, True)); [done | by apply tall_true]. Qed.

Lemma tmap_lookup_Some {d} (f : R → R) (t : list (tensor d)) (i : nat) (v : tensor d) :
  tmap (d:=S d) f t !! i = Some v → ∃ x, t !! i = Some x ∧ v = tmap f x.
Proof.
  simpl. change (List.map (tmap f) t) with (tmap f <$> t).
  rewrite list_lookup_fmap. destruct (t !! i) as [x|]; [|done].
  intros H. injection H as <-. by exists x.
Qed.

Lemma dead_model_per_example : per_example dead_model.
Proof.
  intros i j k X Gi _ H.
  apply (tmap_lookup_Some (d:=3)) in H as (x & _ & ->).
  apply (tall_zeros_like (d:=3)).
Qed.

Lemma imap_lookup_Some {A B} (f : nat → A → B) (l : list A) (j : nat) (v : B) :
  imap f l !! j = Some v → ∃ x, l !! j = Some x ∧ v = f j x.
Proof.
  rewrite list_lookup_imap. destruct (l !! j) as [x|]; [|done].
  intros H. injection H as <-. by exists x.
Qed.

Lemma linear_model_contract : tf_contract linear_model.
Proof.
  split.
  - intros X. apply (has_shape_cons (d:=1)). simpl. split; [by rewrite length_map|].
    apply Forall_fmap, Forall_forall. intros img _.
    apply (has_shape_row num_classes
             (List.map (λ k : nat, IZR (Z.of_nat k + 1) * tsum (d:=3) img) (seq 0 num_classes))).
    by rewrite length_map, length_seq.
  - intros i k s X HX. destruct s as [|n s]; [done|]. cbn [dscore linear_model].
    apply (has_shape_cons (d:=3)) in HX as [HL HF]. apply (has_shape_cons (d:=3)).
    split; [by rewrite length_imap|].
    apply Forall_lookup. intros j v Hv.
    apply imap_lookup_Some in Hv as (img & Hj & ->).
    pose proof (proj1 (Forall_lookup _ _) HF j img Hj) as Himg.
    destruct (decide (j = i)); by apply has_shape_tmap.
Qed.

Lemma linear_model_per_example : per_example linear_model.
Proof.
  intros i j k X Gi Hne H.
  apply imap_lookup_Some in H as (img & _ & ->).
  destruct (decide (i = j)); [done|]. apply (tall_zeros_like (d:=3)).
Qed.

Lemma argmax_from_replicate (n best_i i : nat) (b : R) :
  argmax_from best_i b i (replicate n b) = best_i.
Proof.
  revert i. induction n as [|n IH]; intros i; simpl; [done|].
  destruct (Rlt_dec b b); [lra | apply IH].
Qed.

Lemma np_argmax_zero_row (n : nat) : np_argmax [replicate (S n) 0] = Ok 0%Z.
Proof.
  unfold np_argmax. simpl. rewrite app_nil_r.
  by rewrite argmax_from_replicate.
Qed.

Lemma dead_model_predict (l : loc) (σ : heap) (X : tensor 4) :
  σ !! l = Some X → length X = 1%nat → predict dead_model l σ = Ok 0%Z.
Proof.
  intros Hl HX. unfold predict. rewrite (deref_Some _ _ _ Hl), bind_Ok.
  destruct X as [|x [|]]; try done.
  change (classifier dead_model [x]) with [replicate num_classes 0].
  change num_classes with (S 999). apply np_argmax_zero_row.
Qed.

Lemma sumsq_zero {d} (t : tensor d) : tall (λ x, x = 0) t → sumsq t = 0.
Proof.
  induction d as [|d IH]; simpl.
  - intros ->. ring.
  - induction 1 as [|x t Hx _ IHt]; simpl; [done|]. rewrite (IH x Hx), IHt. ring.
Qed.

Lemma has_shape_zero_image : has_shape [1; 224; 224; 3]%nat zero_image.
Proof. vm_compute. reflexivity. Qed.

(** C2 fails as stated: for a network whose target score does not react
    to the image the gradient is zero.  The prediction 0 differs from the
    target 6, so the loop applies the update, and its increment [0 / 0]
    has norm 0 here (numpy computes nan), not 1. *)
Lemma fooling_step_zero_gradient :
  ∃ dX : tensor 4,
    predict dead_model 1%positive {[1%positive := zero_image]} = Ok 0%Z ∧
    unpack_first (fooling_dX dead_model 6 zero_image) = Ok dX ∧
    fooling_body dead_model 6 1%positive {[1%positive := zero_image]}
    = Ok (0%Z, <[1%positive := tadd zero_image dX]> {[1%positive := zero_image]}) ∧
    tf_norm dX = 0 ∧ tf_norm dX ≠ 1.
Proof.
  exists (fooling_increment dead_model 6 zero_image).
  assert (tf_norm (fooling_increment dead_model 6 zero_image) = 0) as Hn.
  { unfold tf_norm. rewrite sumsq_zero; [apply sqrt_0|].
    unfold fooling_increment, tdiv.
    apply (tall_tmap (λ x, x = 0)); [intros x ->; unfold Rdiv; ring|].
    apply (tall_zeros_like (d:=4)). }
  split; [by apply (dead_model_predict _ _ zero_image); [apply lookup_singleton_eq|]|].
  split; [by rewrite fooling_dX_unfold|].
  split; [|split; [done | rewrite Hn; lra]].
  destruct (fooling_body_ok dead_model 6 1%positive {[1%positive := zero_image]}
              [224; 224; 3]%nat zero_image dead_model_contract) as (y & Hb & Hy);
    [lia | apply lookup_singleton_eq | apply has_shape_zero_image |].
  rewrite Hb. do 2 f_equal.
  pose proof (has_shape_fooling_step dead_model 6 _ zero_image
                dead_model_contract has_shape_zero_image) as Hs.
  apply has_shape_cons in Hs as [Hlen _].
  destruct (tadd zero_image (fooling_increment dead_model 6 zero_image)) as [|x [|]];
    try done.
  change (classifier dead_model [x]) with [replicate num_classes 0] in Hy.
  change num_classes with (S 999) in Hy. rewrite np_argmax_zero_row in Hy.
  by injection Hy.
Qed.

(** The saliency theorems at the linear network on a batch of two
    one-pixel images with labels 0 and 1. *)
Lemma saliency_abs_max_of_gradient_witness :
  tf_contract linear_model ∧ per_example linear_model ∧
  has_shape [2; 1; 1; 3]%nat two_examples ∧
  ∃ S, compute_saliency_maps two_examples [0; 1]%Z linear_model = Ok S ∧
    ∀ i yi, [0; 1]%Z !! i = Some yi →
      ∃ (Gi : tensor 3) (Si : tensor 2),
        dscore linear_model i yi two_examples !! i = Some Gi ∧ S !! i = Some Si ∧
        np_max_last (tabs Gi) = Ok Si ∧
        ∀ h w (row : tensor 2) (px : tensor 1), Gi !! h = Some row → row !! w = Some px →
          ∃ a b c (srow : tensor 1), px = [a; b; c] ∧ Si !! h = Some srow ∧
            srow !! w = Some (Rmax (Rmax (Rabs a) (Rabs b)) (Rabs c)).
Proof.
  split; [apply linear_model_contract|]. split; [apply linear_model_per_example|].
  split; [reflexivity|].
  apply (saliency_abs_max_of_gradient linear_model 2 1 1 two_examples [0; 1]%Z).
  - apply linear_model_contract.
  - apply linear_model_per_example.
  - reflexivity.
  - reflexivity.
  - repeat constructor; lia.
Defined.

(** Shape and sign of the saliency map of the same batch. *)
Lemma saliency_shape_nonneg_witness :
  tf_contract linear_model ∧ has_shape [2; 1; 1; 3]%nat two_examples ∧
  ∃ S, compute_saliency_maps two_examples [0; 1]%Z linear_model = Ok S ∧
       has_shape [2; 1; 1]%nat S ∧ tall (λ v, 0 <= v) S.
Proof.
  split; [apply linear_model_contract|]. split; [reflexivity|].
  apply (saliency_shape_nonneg linear_model 2 1 1 two_examples [0; 1]%Z).
  - apply linear_model_contract.
  - reflexivity.
  - reflexivity.
  - repeat constructor; lia.
Defined.

(** The fooling loop on a black image, target class 6, linear network. *)
Lemma make_fooling_image_terminates_witness :
  ∃ lf i y σ',
    fooling_run 100 1%positive 6 linear_model {[1%positive := zero_image]}
    = Ok (lf, i, y, σ') ∧
    make_fooling_image 100 1%positive 6 linear_model {[1%positive := zero_image]}
    = Ok (lf, σ') ∧
    (0 <= i <= 100)%Z ∧ ((i < 100)%Z → y = 6%Z) ∧
    σ' !! lf = Some (fooling_image_after linear_model 6 (Z.to_nat i) zero_image) ∧
    np_argmax (classifier linear_model (fooling_image_after linear_model 6 (Z.to_nat i) zero_image))
    = Ok y ∧
    (∀ j : nat, (Z.of_nat j < i)%Z →
       np_argmax (classifier linear_model (fooling_image_after linear_model 6 j zero_image))
       ≠ Ok 6%Z).
Proof.
  apply (make_fooling_image_terminates linear_model 6 1%positive
           {[1%positive := zero_image]} 224 224 zero_image 100).
  - apply linear_model_contract.
  - lia.
  - apply lookup_singleton_eq.
  - apply has_shape_zero_image.
  - lia.
Defined.

(** The black image at reference 1 is still there after the call. *)
Lemma make_fooling_image_preserves_input_witness :
  ∃ lf σ',
    make_fooling_image 100 1%positive 6 linear_model {[1%positive := zero_image]}
    = Ok (lf, σ') ∧
    σ' !! 1%positive = Some zero_image ∧ lf ≠ 1%positive ∧
    (∀ l, l ∈ dom ({[1%positive := zero_image]} : heap) → σ' !! l = ({[1%positive := zero_image]} : heap) !! l).
Proof.
  apply (make_fooling_image_preserves_input linear_model 6 1%positive
           {[1%positive := zero_image]} 224 224 zero_image).
  - apply linear_model_contract.
  - lia.
  - apply lookup_singleton_eq.
  - apply has_shape_zero_image.
Defined.

(** For the linear network the gradient of class 6 at a pixel is
    (7, 7, 7), of norm [sqrt 147]; the step is this gradient normalised. *)
Lemma fooling_step_unit_norm_witness :
  tf_norm (dscore linear_model 0 6 one_pixel) = sqrt 147 ∧
  ∃ y dX,
    dX = tscale (IZR learning_rate / tf_norm (dscore linear_model 0 6 one_pixel))
                (dscore linear_model 0 6 one_pixel) ∧
    unpack_first (fooling_dX linear_model 6 one_pixel) = Ok dX ∧
    fooling_body linear_model 6 1%positive {[1%positive := one_pixel]}
    = Ok (y, <[1%positive := tadd one_pixel dX]> {[1%positive := one_pixel]}) ∧
    tf_norm dX = 1.
Proof.
  assert (tf_norm (dscore linear_model 0 6 one_pixel) = sqrt 147) as Hn.
  { unfold tf_norm. f_equal. simpl. change (6 + 1)%Z with 7%Z. lra. }
  split; [exact Hn|].
  apply (fooling_step_unit_norm linear_model 6 1%positive {[1%positive := one_pixel]}
           1 1 one_pixel).
  - apply linear_model_contract.
  - lia.
  - apply lookup_singleton_eq.
  - reflexivity.
  - rewrite Hn. intros H0. apply sqrt_eq_0 in H0; lra.
Defined.

(** ** Clipping *)

Lemma scaled_within_zeros {d} (s : R) (lo hi : list R) (t : tensor (S d)) :
  scaled_within s lo hi t → scaled_within 0 lo hi (tzeros_like t).
Proof.
  induction d as [|d IH]; simpl.
  - intros H. apply Forall2_fmap_l. eapply Forall2_impl; [exact H|].
    intros x b _. simpl. lra.
  - intros H. apply Forall_fmap. eapply Forall_impl; [exact H|]. intros x. apply IH.
Qed.

Lemma scaled_within_scale {d} (c : R) (lo hi : list R) (t : tensor (S d)) :
  0 <= c → within lo hi t → scaled_within c lo hi (tscale c t).
Proof.
  intros Hc. unfold within. induction d as [|d IH]; simpl.
  - intros H. apply Forall2_fmap_l. eapply Forall2_impl; [exact H|].
    intros x b Hx. simpl. nra.
  - intros H. apply Forall_fmap. eapply Forall_impl; [exact H|]. intros x. apply IH.
Qed.

Lemma Forall2_zip_with_l {A B} (P Q T : A → B → Prop) (f : A → A → A)
    (l k : list A) (bs : list B) :
  (∀ x y b, P x b → Q y b → T (f x y) b) →
  Forall2 P l bs → Forall2 Q k bs → Forall2 T (zip_with f l k) bs.
Proof.
  intros Hf Hl. revert k. induction Hl as [|x b l bs Hx _ IH]; intros k Hk.
  - inversion Hk. constructor.
  - inversion Hk as [|y ? k' ? Hy Hk']; subst. simpl. constructor; eauto.
Qed.

Lemma scaled_within_add {d} (a b : R) (lo hi : list R) (x y : tensor (S d)) :
  scaled_within a lo hi x → scaled_within b lo hi y →
  scaled_within (a + b) lo hi (tadd x y).
Proof.
  induction d as [|d IH]; simpl; intros Hx Hy.
  - eapply Forall2_zip_with_l; [|exact Hx|exact Hy]. intros u v c Hu Hv. simpl in *. lra.
  - eapply Forall_zip_with_both; [|exact Hx|exact Hy]. intros u v. apply IH.
Qed.

Lemma clip_pixel_within (px : list R) (bs : list (R * R)) :
  length px = length bs → Forall (λ b, b.1 <= b.2) bs →
  Forall2 (λ x b, 1 * b.1 <= x <= 1 * b.2)
          (zip_with (λ x b, Rmin (Rmax x b.1) b.2) px bs) bs.
Proof.
  intros Hlen Hbs. revert px Hlen.
  induction Hbs as [|b bs Hb _ IH]; intros [|x px] Hlen; try done; simpl.
  constructor; [|apply IH; simpl in Hlen; lia].
  unfold Rmin, Rmax. repeat destruct (Rle_dec _ _); lra.
Qed.

(** Whatever the input, the clipped image lies within the clip interval. *)
Lemma np_clip_within {d} (lo hi : list R) (s : list nat) (t : tensor (S d)) :
  length s = d → has_shape (s ++ [length (zip lo hi)]) t →
  Forall (λ b, b.1 <= b.2) (zip lo hi) →
  within lo hi (np_clip lo hi t).
Proof.
  intros Hs Ht Hb. unfold within, np_clip. revert s t Hs Ht.
  induction d as [|d IH]; intros s t Hs Ht.
  - destruct s; [|done]. apply (has_shape_cons (d:=0)) in Ht as [Hl _].
    simpl. by apply clip_pixel_within.
  - destruct s as [|n s]; [done|]. injection Hs as Hs.
    change ((n :: s) ++ [length (zip lo hi)]) with (n :: (s ++ [length (zip lo hi)])) in Ht.
    apply has_shape_cons in Ht as [_ Hf]. simpl.
    apply Forall_fmap. eapply Forall_impl; [exact Hf|]. intros x Hx. by apply (IH s).
Qed.

Lemma has_shape_broadcast_last {d} {B} (f : R → B → R) (bs : list B) (s : list nat)
    (t : tensor (S d)) :
  length s = d → has_shape (s ++ [length bs]) t →
  has_shape (s ++ [length bs]) (broadcast_last f bs t).
Proof.
  revert s t. induction d as [|d IH]; intros s t Hs Ht.
  - destruct s; [|done]. apply (has_shape_cons (d:=0)) in Ht as [Hl _].
    apply has_shape_row. simpl. rewrite length_zip_with.
    change (length (t : list R) = length bs) in Hl. rewrite Hl. apply Nat.min_id.
  - destruct s as [|n s]; [done|]. injection Hs as Hs.
    change ((n :: s) ++ [length bs]) with (n :: (s ++ [length bs])) in *.
    apply has_shape_cons in Ht as [Hl Hf]. apply has_shape_cons. simpl.
    split; [by rewrite length_map|].
    apply Forall_fmap. eapply Forall_impl; [exact Hf|]. intros x Hx. by apply (IH s).
Qed.

Lemma has_shape_np_clip {d} (lo hi : list R) (s : list nat) (t : tensor (S d)) :
  length s = d → has_shape (s ++ [length (zip lo hi)]) t →
  has_shape (s ++ [length (zip lo hi)]) (np_clip lo hi t).
Proof. apply has_shape_broadcast_last. Qed.

Lemma clip_bounds_ordered (mean std : list R) :
  Forall (λ s, 0 < s) std →
  Forall (λ b, b.1 <= b.2) (zip (clip_lo mean std) (clip_hi mean std)).
Proof.
  unfold clip_lo, clip_hi. intros Hs. revert mean.
  induction Hs as [|s std Hs _ IH]; intros [|m mean]; simpl; try constructor; [|apply IH].
  simpl. unfold Rdiv. assert (0 < / s) by (by apply Rinv_0_lt_compat). nra.
Qed.

Lemma clip_bounds_length (mean std : list R) :
  length mean = 3%nat → length std = 3%nat →
  length (zip (clip_lo mean std) (clip_hi mean std)) = 3%nat.
Proof.
  intros Hm Hs. unfold clip_lo, clip_hi.
  rewrite length_zip, !length_zip_with. lia.
Qed.

Lemma has_shape_np_clip_rgb (lo hi : list R) (a b c : nat) (t : tensor 4) :
  length (zip lo hi) = 3%nat → has_shape [a; b; c; 3%nat] t →
  has_shape [a; b; c; 3%nat] (np_clip lo hi t).
Proof.
  intros Hlen Ht.
  pose proof (has_shape_np_clip (d:=3) lo hi [a; b; c] t eq_refl) as H.
  rewrite Hlen in H. by apply H.
Qed.

Lemma np_clip_within_rgb (lo hi : list R) (a b c : nat) (t : tensor 4) :
  length (zip lo hi) = 3%nat → has_shape [a; b; c; 3%nat] t →
  Forall (λ b, b.1 <= b.2) (zip lo hi) →
  within lo hi (np_clip lo hi t).
Proof.
  intros Hlen Ht Hb.
  pose proof (np_clip_within (d:=3) lo hi [a; b; c] t eq_refl) as H.
  rewrite Hlen in H. by apply H.
Qed.

(** ** Blurring *)

Lemma sum_list_app (l k : list R) : sum_list (l ++ k) = sum_list l + sum_list k.
Proof. induction l as [|x l IH]; simpl; [lra|]. rewrite IH. lra. Qed.

Lemma sum_list_reverse (l : list R) : sum_list (reverse l) = sum_list l.
Proof.
  induction l as [|x l IH]; [done|].
  rewrite reverse_cons, sum_list_app, IH. simpl. lra.
Qed.

Lemma sum_list_div (c : R) (l : list R) :
  sum_list (List.map (λ p, p / c) l) = sum_list l / c.
Proof.
  induction l as [|x l IH]; simpl; [unfold Rdiv; ring|]. rewrite IH. unfold Rdiv. ring.
Qed.

Lemma sum_list_pos (l : list R) : Forall (λ p, 0 < p) l → l ≠ [] → 0 < sum_list l.
Proof.
  intros Hl Hne. destruct Hl as [|x l Hx Hl]; [done|]. simpl.
  assert (0 <= sum_list l); [|lra].
  clear Hne. induction Hl as [|y l Hy _ IH]; simpl; lra.
Qed.

(** The Gaussian weights are nonnegative and sum to 1. *)
Lemma gaussian_kernel1d_convex (sigma : R) (radius : nat) :
  Forall (λ w, 0 <= w) (gaussian_kernel1d sigma radius) ∧
  sum_list (gaussian_kernel1d sigma radius) = 1.
Proof.
  unfold gaussian_kernel1d.
  set (phi := List.map _ (seq 0 (2 * radius + 1))).
  assert (Forall (λ p, 0 < p) phi) as Hphi.
  { subst phi. apply Forall_fmap, Forall_forall. intros j _. apply exp_pos. }
  assert (phi ≠ []) as Hne.
  { subst phi. replace (2 * radius + 1)%nat with (S (2 * radius)) by lia. done. }
  pose proof (sum_list_pos phi Hphi Hne) as Hpos.
  split.
  - apply Forall_fmap. eapply Forall_impl; [exact Hphi|]. intros p Hp. simpl.
    apply Rlt_le, Rdiv_lt_0_compat; done.
  - rewrite sum_list_div. field. lra.
Qed.

Lemma nth_Forall {A} (P : A → Prop) (l : list A) (i : nat) (x : A) :
  Forall P l → P x → P (nth i l x).
Proof.
  intros Hl Hx. revert i. induction Hl as [|y l Hy _ IH]; intros [|i]; simpl; auto.
Qed.

Lemma correlate_fold_within {d} (lo hi : list R) (l : list (tensor (S d)))
    (x : tensor (S d)) (idx : nat → nat) (jw : list (nat * R)) :
  Forall (within lo hi) l → within lo hi x → Forall (λ p, 0 <= p.2) jw →
  scaled_within (sum_list (jw.*2)) lo hi
    (foldr (λ '(j, wj) acc, tadd (tscale wj (nth (idx j) l x)) acc) (tzeros_like x) jw).
Proof.
  intros Hl Hx Hjw. induction Hjw as [|[j wj] jw Hw _ IH]; simpl.
  - by apply (scaled_within_zeros 1).
  - apply scaled_within_add; [|exact IH].
    apply scaled_within_scale; [done|]. by apply nth_Forall.
Qed.

Lemma correlate_at_within {d} (lo hi : list R) (w : list R) (l : list (tensor (S d)))
    (i : nat) (x : tensor (S d)) :
  Forall (λ c, 0 <= c) w → sum_list w = 1 →
  Forall (within lo hi) l → within lo hi x →
  within lo hi (correlate_at w l i x).
Proof.
  intros Hw Hsum Hl Hx.
  assert (scaled_within (sum_list ((zip (seq 0 (length w)) w).*2)) lo hi
            (correlate_at w l i x)) as H.
  { unfold correlate_at.
    apply (correlate_fold_within lo hi l x
             (λ j, reflect_index (length l)
                     (Z.of_nat i + Z.of_nat j - Z.of_nat (length w / 2)))); [done..|].
    apply Forall_forall. intros [j c] Hin. simpl.
    apply elem_of_zip_r in Hin. by eapply (proj1 (Forall_forall _ _) Hw). }
  rewrite snd_zip in H by (rewrite length_seq; lia).
  rewrite Hsum in H. exact H.
Qed.

(** Filtering along an axis other than the channel axis keeps every
    entry within the bounds of its channel. *)
Lemma correlate1d_within {d} (lo hi : list R) (w : list R) (axis : nat) (t : tensor (S d)) :
  (axis < d)%nat → Forall (λ c, 0 <= c) w → sum_list w = 1 →
  within lo hi t → within lo hi (correlate1d w axis t).
Proof.
  intros Hax Hw Hsum. revert axis t Hax.
  induction d as [|d IH]; intros axis t Hax Ht; [lia|].
  change (tensor (S (S d))) with (list (tensor (S d))) in t.
  destruct axis as [|axis].
  - change (Forall (within lo hi) (imap (correlate_at w t) t)).
    change (Forall (within (d:=d) lo hi) t) in Ht.
    apply Forall_lookup. intros i v Hv.
    apply imap_lookup_Some in Hv as (x & Hx & ->).
    apply correlate_at_within; [done..|].
    by apply (proj1 (Forall_lookup _ _) Ht i x).
  - change (Forall (within lo hi) (List.map (correlate1d w axis) t)).
    change (Forall (within (d:=d) lo hi) t) in Ht.
    apply Forall_fmap. eapply Forall_impl; [exact Ht|]. intros x Hx.
    apply IH; [lia | done].
Qed.

Lemma has_shape_correlate_at {d} (w : list R) (l : list (tensor d)) (i : nat)
    (x : tensor d) (s : list nat) :
  Forall (has_shape s) l → has_shape s x → has_shape s (correlate_at w l i x).
Proof.
  intros Hl Hx. unfold correlate_at.
  induction (zip (seq 0 (length w)) w) as [|[j wj] jw IH]; simpl.
  - by apply has_shape_tmap.
  - apply has_shape_tzip; [|exact IH]. apply has_shape_tmap. by apply nth_Forall.
Qed.

Lemma has_shape_correlate1d {d} (w : list R) (axis : nat) (s : list nat) (t : tensor d) :
  has_shape s t → has_shape s (correlate1d w axis t).
Proof.
  revert axis s t. induction d as [|d IH]; intros axis s t Ht; [done|].
  destruct s as [|n s]; [done|].
  apply has_shape_cons in Ht as [Hl Hf]. apply has_shape_cons.
  destruct axis as [|axis]; simpl.
  - split; [by rewrite length_imap|].
    apply Forall_lookup. intros i v Hv.
    apply imap_lookup_Some in Hv as (x & Hx & ->).
    apply has_shape_correlate_at; [done|].
    by apply (proj1 (Forall_lookup _ _) Hf i x).
  - split; [by rewrite length_map|].
    apply Forall_fmap. eapply Forall_impl; [exact Hf|]. intros x Hx. by apply IH.
Qed.

Lemma gaussian_weights_convex (sigma : R) :
  Forall (λ c, 0 <= c) (reverse (gaussian_kernel1d sigma (gaussian_radius sigma))) ∧
  sum_list (reverse (gaussian_kernel1d sigma (gaussian_radius sigma))) = 1.
Proof.
  destruct (gaussian_kernel1d_convex sigma (gaussian_radius sigma)) as [Hpos Hsum].
  split; [by apply Forall_reverse | by rewrite sum_list_reverse].
Qed.

(** The blur is a weighted average along the height and the width: it
    keeps the image within the clip interval and keeps its shape. *)
Lemma blur_image_within (lo hi : list R) (X : tensor 4) (sigma : R) :
  within lo hi X → within lo hi (blur_image X sigma).
Proof.
  intros HX. destruct (gaussian_weights_convex sigma) as [Hpos Hsum].
  unfold blur_image, gaussian_filter1d.
  apply (correlate1d_within (d:=3)); [lia | done | done |].
  apply (correlate1d_within (d:=3)); [lia | done | done | done].
Qed.

Lemma has_shape_blur_image (s : list nat) (X : tensor 4) (sigma : R) :
  has_shape s X → has_shape s (blur_image X sigma).
Proof.
  intros HX. unfold blur_image, gaussian_filter1d.
  by do 2 apply has_shape_correlate1d.
Qed.

(** ** Class visualisation *)

Section ClassVisualizationProperties.
Context (SQUEEZENET_MEAN SQUEEZENET_STD : list R).
Context (preprocess_image : tensor 3 → tensor 3).
Context (class_names : gmap Z string).
Context {G : Type} (rs : RandomState G).

Local Abbreviation lo := (clip_lo SQUEEZENET_MEAN SQUEEZENET_STD).
Local Abbreviation hi := (clip_hi SQUEEZENET_MEAN SQUEEZENET_STD).
Local Abbreviation utils_ok := (image_utils_ok SQUEEZENET_MEAN SQUEEZENET_STD preprocess_image).
Local Abbreviation iteration := (cv_iteration SQUEEZENET_MEAN SQUEEZENET_STD class_names rs).
Local Abbreviation loop := (cv_loop SQUEEZENET_MEAN SQUEEZENET_STD class_names rs).

Lemma blur_due_ok (kw : kwargs) (t : Z) :
  blur_every kw ≠ 0%Z → blur_due kw t = Ok (t mod blur_every kw =? 0)%Z.
Proof.
  intros H. unfold blur_due. by destruct (Z.eqb_spec (blur_every kw) 0).
Qed.

Lemma show_due_ok (kw : kwargs) (t : Z) :
  show_every kw ≠ 0%Z → ∃ b, show_due kw t = Ok b.
Proof.
  intros H. unfold show_due. destruct (t =? 0)%Z; [by eauto|].
  destruct (Z.eqb_spec (show_every kw) 0); [done | by eauto].
Qed.

Lemma cv_show_ok (target_y : Z) :
  is_Some (class_names !! target_y) → cv_show class_names target_y = Ok ().
Proof. intros [name H]. unfold cv_show. by rewrite H. Qed.

Lemma has_shape_cv_ascent (target_y : Z) (m : SqueezeNet) (kw : kwargs) (ox oy : Z)
    (s : list nat) (X : tensor 4) :
  tf_contract m → has_shape s X → has_shape s (cv_ascent target_y m kw ox oy X).
Proof.
  intros Hm HX. unfold cv_ascent, unjitter.
  assert (has_shape s (jitter ox oy X)) as HJ by (by do 2 apply has_shape_np_roll).
  do 2 apply has_shape_np_roll. apply has_shape_tzip; [done|].
  by apply has_shape_tmap, has_shape_grad_image.
Qed.

(** One iteration: it succeeds, the image is clipped, and it is blurred
    exactly when [t mod blur_every = 0]. *)
Lemma cv_iteration_ok (target_y : Z) (m : SqueezeNet) (kw : kwargs) (t : Z)
    (X : tensor 4) (g : G) :
  tf_contract m → utils_ok → cv_ready class_names target_y kw →
  has_shape [1; 224; 224; 3]%nat X →
  ∃ ox oy g' C,
    np_random_randint rs (- max_jitter kw) (max_jitter kw + 1) g = Ok ((ox, oy), g') ∧
    C = np_clip lo hi (cv_ascent target_y m kw ox oy X) ∧
    iteration target_y m kw t (X, g)
    = Ok (if (t mod blur_every kw =? 0)%Z then blur_image C (1 / 2) else C, g') ∧
    within lo hi C ∧ has_shape [1; 224; 224; 3]%nat C.
Proof.
  intros Hm (Hlm & Hls & Hpos & _) (_ & Hj & Hb & Hs & Hname) HX.
  destruct (random_randint rs (- max_jitter kw) (max_jitter kw + 1) g) as [[ox oy] g'] eqn:Hr.
  assert (np_random_randint rs (- max_jitter kw) (max_jitter kw + 1) g = Ok ((ox, oy), g'))
    as Hrand.
  { unfold np_random_randint. rewrite Hr.
    by destruct (Z.ltb_spec (- max_jitter kw) (max_jitter kw + 1)); [|lia]. }
  pose proof (clip_bounds_length _ _ Hlm Hls) as Hlen.
  pose proof (has_shape_cv_ascent target_y m kw ox oy _ X Hm HX) as HY.
  set (C := np_clip lo hi (cv_ascent target_y m kw ox oy X)).
  assert (has_shape [1; 224; 224; 3]%nat C) as HC.
  { by apply has_shape_np_clip_rgb. }
  assert (within lo hi C) as HW.
  { apply (np_clip_within_rgb lo hi 1 224 224); [done | done |].
    by apply clip_bounds_ordered. }
  exists ox, oy, g', C. split; [done|]. split; [done|]. split; [|done].
  unfold cv_iteration. rewrite Hrand, bind_Ok. cbv beta iota.
  unfold tf_gradients, tsum_like, unpack_first. cbn [List.map foldl]. rewrite bind_Ok.
  assert (has_shapeb [1; 224; 224; 3]%nat
            (grad_image m (cv_loss kw target_y) (jitter ox oy X)) = true) as ->.
  { apply has_shape_grad_image; [done|]. by do 2 apply has_shape_np_roll. }
  rewrite (blur_due_ok kw t Hb), bind_Ok.
  destruct (show_due_ok kw t Hs) as [b ->]. rewrite bind_Ok.
  fold (cv_ascent target_y m kw ox oy X). fold C.
  destruct b; [rewrite (cv_show_ok target_y Hname)|]; by rewrite bind_Ok.
Qed.

(** After any number of iterations the image has its shape, and once one
    iteration has run it lies within the clip interval. *)
Lemma cv_loop_invariant (target_y : Z) (m : SqueezeNet) (kw : kwargs) (n : nat) (t : Z)
    (X : tensor 4) (g : G) :
  tf_contract m → utils_ok → cv_ready class_names target_y kw →
  has_shape [1; 224; 224; 3]%nat X →
  ∃ X' g', loop target_y m kw n t (X, g) = Ok (X', g') ∧
    has_shape [1; 224; 224; 3]%nat X' ∧
    ((0 < n)%nat ∨ within lo hi X → within lo hi X').
Proof.
  intros Hm Hu Hr. revert t X g. induction n as [|n IH]; intros t X g HX.
  - exists X, g. split; [done|]. split; [done|]. intros [H|H]; [lia | done].
  - destruct (cv_iteration_ok target_y m kw t X g Hm Hu Hr HX)
      as (ox & oy & g1 & C & _ & _ & Hit & HW & HC).
    set (X1 := if (t mod blur_every kw =? 0)%Z then blur_image C (1 / 2) else C) in Hit.
    assert (has_shape [1; 224; 224; 3]%nat X1 ∧ within lo hi X1) as [HX1 HW1].
    { subst X1. destruct (t mod blur_every kw =? 0)%Z; [|done].
      split; [by apply has_shape_blur_image | by apply blur_image_within]. }
    destruct (IH (t + 1)%Z X1 g1 HX1) as (X' & g' & Hl & HX' & HW').
    exists X', g'. split; [|split; [done | intros _; apply HW'; by right]].
    cbn [cv_loop]. by rewrite Hit, bind_Ok.
Qed.

Lemma cv_initial_shape (g : G) :
  rand_contract rs → utils_ok →
  has_shape [1; 224; 224; 3]%nat (cv_initial preprocess_image rs g).1.
Proof.
  intros Hrand (_ & _ & _ & Hpre). unfold cv_initial.
  destruct (Hrand [224; 224; 3]%nat g eq_refl) as [Hs _].
  destruct (random_rand rs [224; 224; 3]%nat g) as [u g']. simpl in Hs. cbn [fst].
  apply (has_shape_cons (d:=3)). split; [done|].
  apply Forall_singleton. by apply Hpre, has_shape_tmap.
Qed.



(** C10: every entry of the image that [create_class_visualization]
    returns lies within the clip interval of its channel.  The bounds hold
    after every iteration from the first one on (clipping establishes
    them, the blur keeps them), so they hold for the returned image
    whenever the loop runs at least once; when it does not run, the
    returned image is the initial one, which the usual preprocessing
    already puts within the interval ([standard_initial_within]). *)
Theorem cv_result_within_clip_interval (target_y : Z) (m : SqueezeNet) (kw : kwargs) (g : G) :
  tf_contract m → rand_contract rs → utils_ok → cv_ready class_names target_y kw →
  (0 < num_iterations kw)%Z ∨ within lo hi (cv_initial preprocess_image rs g).1 →
  (∀ n, (0 < n)%nat →
     ∃ Xn gn, loop target_y m kw n 0 (cv_initial preprocess_image rs g) = Ok (Xn, gn) ∧
              within lo hi Xn) ∧
  ∃ X g',
    create_class_visualization SQUEEZENET_MEAN SQUEEZENET_STD preprocess_image
      class_names rs target_y m kw g = Ok (X, g') ∧
    within lo hi X.
Proof.
  intros Hm Hrand Hu Hr Hn.
  pose proof (cv_initial_shape g Hrand Hu) as H0.
  destruct (cv_initial preprocess_image rs g) as [X0 g0] eqn:Hinit. cbn [fst] in H0.
  assert (∀ n, (0 < n)%nat →
     ∃ Xn gn, loop target_y m kw n 0 (X0, g0) = Ok (Xn, gn) ∧ within lo hi Xn) as Hinv.
  { intros n Hpos.
    destruct (cv_loop_invariant target_y m kw n 0 X0 g0 Hm Hu Hr H0)
      as (Xn & gn & Hl & _ & HW).
    exists Xn, gn. split; [done|]. apply HW. by left. }
  split; [exact Hinv|].
  unfold create_class_visualization. rewrite Hinit. cbv zeta.
  rewrite (tf_class_index_ok target_y) by (by destruct Hr). rewrite bind_Ok.
  destruct (cv_loop_invariant target_y m kw (Z.to_nat (num_iterations kw)) 0 X0 g0
              Hm Hu Hr H0) as (X & g' & Hl & _ & HW).
  exists X, g'. split; [done|]. apply HW.
  destruct Hn as [Hn|Hn]; [left; lia | by right].
Qed.

(** C6: the image starts as random noise.  Before any gradient step it is
    [preprocess_image] applied to an array of shape (224, 224, 3) drawn
    by [np.random.rand] and scaled to values in [0, 255); it is the same
    for every target class, and it is what the function returns when no
    iteration runs. *)
Theorem cv_starts_from_noise (g : G) :
  rand_contract rs →
  ∃ (u : tensor 3) (g' : G),
    random_rand rs [224; 224; 3]%nat g = (u, g') ∧
    has_shape [224; 224; 3]%nat (tscale 255 u) ∧
    tall (λ v, 0 <= v < 255) (tscale 255 u) ∧
    cv_initial preprocess_image rs g = ([preprocess_image (tscale 255 u)], g') ∧
    ∀ (target_y : Z) (m : SqueezeNet) (kw : kwargs),
      (0 <= target_y < 1000)%Z →
      create_class_visualization SQUEEZENET_MEAN SQUEEZENET_STD preprocess_image
        class_names rs target_y m kw g
      = loop target_y m kw (Z.to_nat (num_iterations kw)) 0
          ([preprocess_image (tscale 255 u)], g') ∧
      ((num_iterations kw <= 0)%Z →
         create_class_visualization SQUEEZENET_MEAN SQUEEZENET_STD preprocess_image
           class_names rs target_y m kw g
         = Ok ([preprocess_image (tscale 255 u)], g')).
Proof.
  intros Hrand.
  destruct (Hrand [224; 224; 3]%nat g eq_refl) as [Hs Hrange].
  destruct (random_rand rs [224; 224; 3]%nat g) as [u g'] eqn:Hu. cbn [fst] in *.
  exists u, g'. split; [done|]. split; [by apply has_shape_tmap|]. split.
  { eapply tall_tmap; [|exact Hrange]. intros x Hx. simpl in *. lra. }
  assert (cv_initial preprocess_image rs g = ([preprocess_image (tscale 255 u)], g')) as Hinit.
  { unfold cv_initial. by rewrite Hu. }
  split; [done|]. intros target_y m kw Ht.
  unfold create_class_visualization. rewrite Hinit. cbv zeta.
  rewrite (tf_class_index_ok target_y Ht), bind_Ok.
  split; [done|]. intros Hle. by replace (Z.to_nat (num_iterations kw)) with 0%nat by lia.
Qed.
End ClassVisualizationProperties.

(** ** The example inputs *)

Lemma has_shape_replicate {d} (n : nat) (s : list nat) (x : tensor d) :
  has_shape s x → has_shape (d:=S d) (n :: s) (replicate n x).
Proof.
  intros Hx. apply has_shape_cons. split; [apply length_replicate|].
  by apply Forall_replicate.
Qed.

Lemma constant_rng_contract : rand_contract constant_rng.
Proof.
  intros s g Hs. destruct s as [|a [|b [|c [|]]]]; try done. cbn [constant_rng random_rand fst np_full].
  split.
  - apply (has_shape_replicate (d:=2)), (has_shape_replicate (d:=1)), has_shape_row,
      length_replicate.
  - apply Forall_replicate, Forall_replicate, Forall_replicate. simpl. lra.
Qed.

Lemma imagenet_utils_ok : image_utils_ok imagenet_mean imagenet_std standard_preprocess.
Proof.
  split; [done|]. split; [done|]. split.
  - unfold imagenet_std. repeat constructor; lra.
  - intros u Hu. unfold standard_preprocess.
    exact (has_shape_broadcast_last (d:=2) _ (zip imagenet_mean imagenet_std)
             [224; 224]%nat u eq_refl Hu).
Qed.

Lemma default_kwargs_ready : cv_ready tarantula_only 76 default_kwargs.
Proof.
  split; [lia|]. split; [done|]. split; [done|]. split; [done|].
  unfold tarantula_only. rewrite lookup_singleton_eq. by eexists.
Qed.


Lemma broadcast_pixel_within (px : list R) :
  length px = 3%nat → Forall (λ v, 0 <= v < 255) px →
  Forall2 (λ x b, 1 * b.1 <= x <= 1 * b.2)
    (zip_with (λ x b, (x / 255 - b.1) / b.2) px (zip imagenet_mean imagenet_std))
    (zip (clip_lo imagenet_mean imagenet_std) (clip_hi imagenet_mean imagenet_std)).
Proof.
  intros Hlen Hpx. destruct px as [|x [|y [|z [|]]]]; try done.
  inversion Hpx as [|? ? Hx Hpx1]; subst. inversion Hpx1 as [|? ? Hy Hpx2]; subst.
  inversion Hpx2 as [|? ? Hz _]; subst.
  unfold imagenet_mean, imagenet_std, clip_lo, clip_hi. simpl.
  do 3 (constructor; [simpl; lra|]). constructor.
Qed.

(** With the usual preprocessing the initial image is already within the
    clip interval. *)
Lemma standard_initial_within {G} (rs : RandomState G) (g : G) :
  rand_contract rs →
  within (clip_lo imagenet_mean imagenet_std) (clip_hi imagenet_mean imagenet_std)
    (cv_initial standard_preprocess rs g).1.
Proof.
  intros Hrand. unfold cv_initial.
  destruct (Hrand [224; 224; 3]%nat g eq_refl) as [Hs Hrange].
  destruct (random_rand rs [224; 224; 3]%nat g) as [u g']. cbn [fst] in *.
  assert (has_shape [224; 224; 3]%nat (tscale 255 u)) as Hs' by (by apply has_shape_tmap).
  assert (tall (λ v, 0 <= v < 255) (tscale 255 u)) as Hr'.
  { eapply tall_tmap; [|exact Hrange]. intros x Hx. simpl in *. lra. }
  unfold within. apply Forall_singleton. unfold standard_preprocess.
  apply (has_shape_cons (d:=2)) in Hs' as [_ Hrows].
  change (Forall (tall (d:=2) (λ v, 0 <= v < 255)) (tscale (d:=3) 255 u)) in Hr'.
  change (Forall (scaled_within (d:=1) 1 (clip_lo imagenet_mean imagenet_std)
                    (clip_hi imagenet_mean imagenet_std))
            (List.map (broadcast_last (d:=1) (λ x b, (x / 255 - b.1) / b.2)
                         (zip imagenet_mean imagenet_std)) (tscale (d:=3) 255 u))).
  apply Forall_fmap, Forall_lookup. intros i row Hrow.
  pose proof (proj1 (Forall_lookup _ _) Hrows i row Hrow) as Hsrow.
  pose proof (proj1 (Forall_lookup _ _) Hr' i row Hrow) as Hrrow.
  apply (has_shape_cons (d:=1)) in Hsrow as [_ Hpxs].
  change (Forall (tall (d:=1) (λ v, 0 <= v < 255)) row) in Hrrow.
  change (Forall (scaled_within (d:=0) 1 (clip_lo imagenet_mean imagenet_std)
                    (clip_hi imagenet_mean imagenet_std))
            (List.map (broadcast_last (d:=0) (λ x b, (x / 255 - b.1) / b.2)
                         (zip imagenet_mean imagenet_std)) row)).
  apply Forall_fmap, Forall_lookup. intros j px Hpx.
  pose proof (proj1 (Forall_lookup _ _) Hpxs j px Hpx) as Hspx.
  pose proof (proj1 (Forall_lookup _ _) Hrrow j px Hpx) as Hrpx.
  apply (has_shape_cons (d:=0)) in Hspx as [Hlen _].
  by apply broadcast_pixel_within.
Qed.

Lemma no_iterations_ready : cv_ready tarantula_only 76 no_iterations.
Proof.
  split; [lia|]. split; [done|]. split; [done|]. split; [done|].
  unfold tarantula_only. rewrite lookup_singleton_eq. by eexists.
Qed.

(** The default 100 iterations, and the call with no iteration at all. *)
Lemma cv_result_within_clip_interval_witness :
  ((∀ n, (0 < n)%nat →
      ∃ Xn gn,
        cv_loop imagenet_mean imagenet_std tarantula_only constant_rng
          76 linear_model default_kwargs n 0 (cv_initial standard_preprocess constant_rng ())
        = Ok (Xn, gn) ∧
        within (clip_lo imagenet_mean imagenet_std) (clip_hi imagenet_mean imagenet_std) Xn) ∧
   ∃ X g',
     create_class_visualization imagenet_mean imagenet_std standard_preprocess
       tarantula_only constant_rng 76 linear_model default_kwargs () = Ok (X, g') ∧
     within (clip_lo imagenet_mean imagenet_std) (clip_hi imagenet_mean imagenet_std) X) ∧
  ∃ X g',
    create_class_visualization imagenet_mean imagenet_std standard_preprocess
      tarantula_only constant_rng 76 linear_model no_iterations () = Ok (X, g') ∧
    within (clip_lo imagenet_mean imagenet_std) (clip_hi imagenet_mean imagenet_std) X.
Proof.
  split.
  - apply (cv_result_within_clip_interval imagenet_mean imagenet_std standard_preprocess
             tarantula_only constant_rng 76 linear_model default_kwargs ()).
    + apply linear_model_contract.
    + apply constant_rng_contract.
    + apply imagenet_utils_ok.
    + apply default_kwargs_ready.
    + left. reflexivity.
  - apply (cv_result_within_clip_interval imagenet_mean imagenet_std standard_preprocess
             tarantula_only constant_rng 76 linear_model no_iterations ()).
    + apply linear_model_contract.
    + apply constant_rng_contract.
    + apply imagenet_utils_ok.
    + apply no_iterations_ready.
    + right. apply standard_initial_within, constant_rng_contract.
Defined.

(** The initial image for the constant generator. *)
Lemma cv_starts_from_noise_witness :
  ∃ (u : tensor 3) (g' : unit),
    random_rand constant_rng [224; 224; 3]%nat () = (u, g') ∧
    has_shape [224; 224; 3]%nat (tscale 255 u) ∧
    tall (λ v, 0 <= v < 255) (tscale 255 u) ∧
    cv_initial standard_preprocess constant_rng ()
    = ([standard_preprocess (tscale 255 u)], g') ∧
    ∀ (target_y : Z) (m : SqueezeNet) (kw : kwargs),
      (0 <= target_y < 1000)%Z →
      create_class_visualization imagenet_mean imagenet_std standard_preprocess
        tarantula_only constant_rng target_y m kw ()
      = cv_loop imagenet_mean imagenet_std tarantula_only constant_rng
          target_y m kw (Z.to_nat (num_iterations kw)) 0
          ([standard_preprocess (tscale 255 u)], g') ∧
      ((num_iterations kw <= 0)%Z →
         create_class_visualization imagenet_mean imagenet_std standard_preprocess
           tarantula_only constant_rng target_y m kw ()
         = Ok ([standard_preprocess (tscale 255 u)], g')).
Proof.
  apply (cv_starts_from_noise imagenet_mean imagenet_std standard_preprocess
           tarantula_only constant_rng ()).
  apply constant_rng_contract.
Defined.

(** * Further properties *)

(** ** The fooling loop and the image it returns *)

Lemma np_argmax_single_row (row : list R) : np_argmax [row] = argmax1 row.
Proof. unfold np_argmax, argmax1. simpl. by rewrite app_nil_r. Qed.

(** An invariant of the image that every update step keeps holds of the
    returned image; the final prediction is the prediction for that image. *)
Lemma fooling_loop_invariant (Inv : Z → tensor 4 → Prop) (m : SqueezeNet) (target_y : Z)
    (lf : loc) (s : list nat) :
  tf_contract m → (0 <= target_y < 1000)%Z →
  (∀ k X, (0 <= k < n_iterations)%Z → has_shape (1%nat :: s) X → Inv k X →
          Inv (k + 1)%Z (tadd X (fooling_increment m target_y X))) →
  ∀ (fuel : nat) (i y : Z) (σ : heap) (X : tensor 4),
    (0 <= i)%Z → (n_iterations - i <= Z.of_nat fuel)%Z →
    σ !! lf = Some X → has_shape (1%nat :: s) X →
    np_argmax (classifier m X) = Ok y → Inv i X →
    ∃ i' y' σ' X',
      fooling_loop fuel m target_y lf i y σ = Ok (i', y', σ') ∧
      σ' !! lf = Some X' ∧ has_shape (1%nat :: s) X' ∧
      np_argmax (classifier m X') = Ok y' ∧ Inv i' X' ∧
      (i <= i' <= Z.max i n_iterations)%Z ∧ ((i' < n_iterations)%Z → y' = target_y).
Proof.
  intros Hm Ht Hstep fuel.
  induction fuel as [|fuel IH]; intros i y σ X Hi Hfuel Hl HX Hy HI.
  - simpl. destruct (Z.ltb_spec i n_iterations) as [Hlt|Hge]; [lia|]. simpl.
    exists i, y, σ, X. do 5 (split; [done|]). split; lia.
  - simpl. destruct (Z.ltb_spec i n_iterations) as [Hlt|Hge]; simpl.
    + destruct (Z.eqb_spec y target_y) as [Heq|Hne]; simpl.
      * exists i, y, σ, X. do 5 (split; [done|]). split; [lia | done].
      * destruct (fooling_body_ok m target_y lf σ s X Hm Ht Hl HX) as (y1 & Hb & Hy1).
        rewrite Hb, bind_Ok.
        destruct (IH (i + 1)%Z y1 (<[lf := tadd X (fooling_increment m target_y X)]> σ)
                    (tadd X (fooling_increment m target_y X)))
          as (i' & y' & σ' & X' & Hr & Hl' & HX' & Hy' & HI' & Hb' & Hs');
          [lia | lia | apply lookup_insert_eq | by apply has_shape_fooling_step
          | done | apply Hstep; [lia | done | done] |].
        exists i', y', σ', X'. do 5 (split; [done|]). split; [lia | done].
    + exists i, y, σ, X. do 5 (split; [done|]). split; lia.
Qed.

Lemma fooling_run_invariant (Inv : Z → tensor 4 → Prop) (m : SqueezeNet) (target_y : Z)
    (lX : loc) (σ : heap) (s : list nat) (X : tensor 4) (fuel : nat) :
  tf_contract m → (0 <= target_y < 1000)%Z →
  (∀ k X', (0 <= k < n_iterations)%Z → has_shape (1%nat :: s) X' → Inv k X' →
           Inv (k + 1)%Z (tadd X' (fooling_increment m target_y X'))) →
  σ !! lX = Some X → has_shape (1%nat :: s) X → Inv 0%Z X →
  (n_iterations <= Z.of_nat fuel)%Z →
  ∃ i y σ' Xf,
    fooling_run fuel lX target_y m σ = Ok (fresh (dom σ), i, y, σ') ∧
    σ' !! fresh (dom σ) = Some Xf ∧ has_shape (1%nat :: s) Xf ∧
    np_argmax (classifier m Xf) = Ok y ∧ Inv i Xf ∧
    (0 <= i <= n_iterations)%Z ∧ ((i < n_iterations)%Z → y = target_y).
Proof.
  intros Hm Ht Hstep Hl HX HI Hfuel. unfold fooling_run, np_copy.
  rewrite (deref_Some _ _ _ Hl), !bind_Ok.
  rewrite (tf_class_index_ok target_y) by lia. rewrite bind_Ok.
  set (lf := fresh (dom σ)).
  destruct (scores_ok (classifier m X) target_y) as (y & _ & Hy & _);
    [by apply (classifier_shape_one m s) | done |].
  unfold predict. rewrite (deref_Some _ _ X) by apply lookup_insert_eq.
  rewrite bind_Ok, Hy, bind_Ok.
  destruct (fooling_loop_invariant Inv m target_y lf s Hm Ht Hstep fuel 0 y
              (<[lf := X]> σ) X)
    as (i' & y' & σ' & X' & Hr & Hl' & HX' & Hy' & HI' & Hb' & Hs');
    [lia | lia | apply lookup_insert_eq | done | done | done |].
  rewrite Hr, bind_Ok. exists i', y', σ', X'.
  do 5 (split; [done|]). split; [unfold n_iterations in *; lia | done].
Qed.

(** X1: The image that [make_fooling_image] returns is classified by the
    model as the final prediction [y] of the loop; so it is classified as
    [target_y] whenever the loop stopped before its 100th iteration. *)
Theorem fooling_image_prediction (m : SqueezeNet) (target_y : Z) (lX : loc) (σ : heap)
    (h w : nat) (X : tensor 4) :
  tf_contract m → (0 <= target_y < 1000)%Z →
  σ !! lX = Some X → has_shape [1; h; w; 3]%nat X →
  ∃ lf i y σ' X_fooling,
    fooling_run 100 lX target_y m σ = Ok (lf, i, y, σ') ∧
    make_fooling_image 100 lX target_y m σ = Ok (lf, σ') ∧
    σ' !! lf = Some X_fooling ∧ has_shape [1; h; w; 3]%nat X_fooling ∧
    np_argmax (classifier m X_fooling) = Ok y ∧
    ((i < 100)%Z → np_argmax (classifier m X_fooling) = Ok target_y).
Proof.
  intros Hm Ht Hl HX.
  destruct (fooling_run_invariant (λ _ _, True) m target_y lX σ [h; w; 3%nat] X 100 Hm Ht)
    as (i & y & σ' & Xf & Hr & Hlf & Hs & Hy & _ & Hi & Hstop);
    [done | done | done | done | unfold n_iterations; lia |].
  exists (fresh (dom σ)), i, y, σ', Xf. split; [done|].
  split; [unfold make_fooling_image; by rewrite Hr|].
  do 3 (split; [done|]). intros Hlt. rewrite Hy. f_equal. by apply Hstop.
Qed.

(** X2: When the model already classifies [X] as [target_y], no update step
    is made: the function returns a new array with the contents of [X],
    whatever the fuel. *)
Theorem fooling_image_already_target (m : SqueezeNet) (target_y : Z) (lX : loc)
    (σ : heap) (X : tensor 4) (fuel : nat) :
  (0 <= target_y < 1000)%Z → σ !! lX = Some X →
  np_argmax (classifier m X) = Ok target_y →
  fooling_run fuel lX target_y m σ
  = Ok (fresh (dom σ), 0%Z, target_y, <[fresh (dom σ) := X]> σ) ∧
  make_fooling_image fuel lX target_y m σ
  = Ok (fresh (dom σ), <[fresh (dom σ) := X]> σ) ∧
  fresh (dom σ) ≠ lX.
Proof.
  intros Ht Hl Hy.
  assert (fooling_run fuel lX target_y m σ
          = Ok (fresh (dom σ), 0%Z, target_y, <[fresh (dom σ) := X]> σ)) as Hr.
  { unfold fooling_run, np_copy. rewrite (deref_Some _ _ _ Hl), !bind_Ok.
    rewrite (tf_class_index_ok target_y Ht), bind_Ok.
    unfold predict. rewrite (deref_Some _ _ X) by apply lookup_insert_eq.
    rewrite bind_Ok, Hy, bind_Ok.
    by rewrite fooling_loop_stops_at_target, bind_Ok. }
  split; [done|]. split; [unfold make_fooling_image; by rewrite Hr|].
  intros Heq. pose proof (is_fresh (dom σ)) as Hfresh.
  apply Hfresh. rewrite Heq. apply elem_of_dom. eauto.
Qed.

(** X3: When the model never predicts [target_y], the loop uses all of its
    100 iterations. *)
Theorem fooling_loop_exhausts_iterations (m : SqueezeNet) (target_y : Z) (lX : loc)
    (σ : heap) (h w : nat) (X : tensor 4) :
  tf_contract m → (0 <= target_y < 1000)%Z →
  σ !! lX = Some X → has_shape [1; h; w; 3]%nat X →
  (∀ X', has_shape [1; h; w; 3]%nat X' → np_argmax (classifier m X') ≠ Ok target_y) →
  ∃ lf y σ', fooling_run 100 lX target_y m σ = Ok (lf, 100%Z, y, σ') ∧ y ≠ target_y.
Proof.
  intros Hm Ht Hl HX Hnever.
  destruct (fooling_run_invariant (λ _ _, True) m target_y lX σ [h; w; 3%nat] X 100 Hm Ht)
    as (i & y & σ' & Xf & Hr & Hlf & Hs & Hy & _ & Hi & Hstop);
    [done | done | done | done | unfold n_iterations; lia |].
  assert (y ≠ target_y) as Hne.
  { intros ->. by apply (Hnever Xf). }
  assert (i = 100%Z) as ->.
  { unfold n_iterations in *. destruct (Z.ltb_spec i 100) as [Hlt|Hge]; [|lia].
    by specialize (Hstop Hlt). }
  by exists (fresh (dom σ)), y, σ'.
Qed.

(** X4: The check that follows the call: it passes exactly when the final
    prediction is [target_y]; otherwise all 100 iterations were used and
    the assertion fails. *)
Theorem fooling_check_outcome (m : SqueezeNet) (target_y : Z) (lX : loc) (σ : heap)
    (h w : nat) (X : tensor 4) :
  tf_contract m → (0 <= target_y < 1000)%Z →
  σ !! lX = Some X → has_shape [1; h; w; 3]%nat X →
  ∃ lf i y σ',
    fooling_run 100 lX target_y m σ = Ok (lf, i, y, σ') ∧
    (y = target_y → fooling_check 100 lX target_y m σ = Ok (lf, σ')) ∧
    (y ≠ target_y →
       i = 100%Z ∧ fooling_check 100 lX target_y m σ = Raise AssertionError).
Proof.
  intros Hm Ht Hl HX.
  destruct (fooling_run_invariant (λ _ _, True) m target_y lX σ [h; w; 3%nat] X 100 Hm Ht)
    as (i & y & σ' & Xf & Hr & Hlf & Hs & Hy & _ & Hi & Hstop);
    [done | done | done | done | unfold n_iterations; lia |].
  exists (fresh (dom σ)), i, y, σ'. split; [done|].
  assert (∀ r, (if (y =? target_y)%Z then Ok (fresh (dom σ), σ') else Raise AssertionError) = r →
               fooling_check 100 lX target_y m σ = r) as Hcheck.
  { intros r <-. unfold fooling_check, make_fooling_image.
    rewrite Hr, !bind_Ok, (deref_Some _ _ _ Hlf), bind_Ok. cbv zeta.
    pose proof (classifier_shape_one m _ Xf Hm Hs) as Hsc.
    apply (has_shape_cons (d:=1)) in Hsc as [Hlen _].
    destruct (classifier m Xf) as [|row [|]] eqn:Hc; try done.
    change (py_getitem [row] 0) with (Ok (A:=tensor 1) row). rewrite bind_Ok.
    rewrite np_argmax_single_row in Hy. by rewrite Hy, bind_Ok. }
  split.
  - intros ->. apply Hcheck. by rewrite Z.eqb_refl.
  - intros Hne. split.
    + unfold n_iterations in *. destruct (Z.ltb_spec i 100) as [Hlt|Hge]; [|lia].
      by specialize (Hstop Hlt).
    + apply Hcheck. by destruct (Z.eqb_spec y target_y).
Qed.

(** ** The distance between the image and its fooling image *)

Lemma cauchy_schwarz_step (p P a A b B : R) :
  0 <= a → 0 <= A → 0 <= b → 0 <= B →
  p * p <= a * b → P * P <= A * B →
  (p + P) * (p + P) <= (a + A) * (b + B).
Proof.
  intros Ha HA Hb HB Hp HP.
  assert (2 * (p * P) <= a * B + A * b) as Hmix.
  { apply Rsqr_incr_0_var; [|nra]. unfold Rsqr.
    assert (p * P * (p * P) <= a * B * (A * b)).
    { replace (p * P * (p * P)) with (p * p * (P * P)) by ring.
      replace (a * B * (A * b)) with (a * b * (A * B)) by ring.
      apply Rmult_le_compat; nra. }
    pose proof (Rle_0_sqr (a * B - A * b)) as Hsq. unfold Rsqr in Hsq.
    replace (2 * (p * P) * (2 * (p * P))) with (4 * (p * P * (p * P))) by ring.
    replace ((a * B + A * b) * (a * B + A * b))
      with ((a * B - A * b) * (a * B - A * b) + 4 * (a * B * (A * b))) by ring.
    lra. }
  replace ((p + P) * (p + P)) with (p * p + 2 * (p * P) + P * P) by ring.
  replace ((a + A) * (b + B)) with (a * b + (a * B + A * b) + A * B) by ring.
  lra.
Qed.

(** Cauchy-Schwarz for the entries of two arrays. *)
Lemma tsum_product_bound {d} (a b : tensor d) :
  tsum (tzip Rmult a b) * tsum (tzip Rmult a b) <= sumsq a * sumsq b.
Proof.
  induction d as [|d IH]; simpl; [nra|].
  revert b. induction a as [|x a IHa]; intros [|y b]; simpl.
  - nra.
  - pose proof (sumsq_nonneg (d:=S d) (y :: b)) as H. simpl in H. nra.
  - pose proof (sumsq_nonneg (d:=S d) (x :: a)) as H. simpl in H. nra.
  - apply cauchy_schwarz_step; [apply sumsq_nonneg | apply (sumsq_nonneg (d:=S d))
      | apply sumsq_nonneg | apply (sumsq_nonneg (d:=S d)) | apply IH | apply IHa].
Qed.

Lemma sumsq_tadd {d} (s : list nat) (a b : tensor d) :
  has_shape s a → has_shape s b →
  sumsq (tadd a b) = sumsq a + 2 * tsum (tzip Rmult a b) + sumsq b.
Proof.
  revert s a b. induction d as [|d IH]; intros s a b Ha Hb.
  - unfold tadd. simpl. ring.
  - destruct s as [|n s]; [done|].
    apply has_shape_cons in Ha as [Hla Hfa]. apply has_shape_cons in Hb as [Hlb Hfb].
    subst n. revert b Hlb Hfb.
    induction Hfa as [|x a Hx _ IHa]; intros [|y b] Hlb Hfb; try done.
    + unfold tadd. simpl. ring.
    + inversion Hfb as [|? ? Hy Hfb']; subst.
      specialize (IHa b ltac:(simpl in Hlb; lia) Hfb').
      unfold tadd in *. simpl in *. rewrite (IH s x y Hx Hy), IHa. ring.
Qed.

(** The triangle inequality of the norm. *)
Lemma tf_norm_tadd {d} (s : list nat) (a b : tensor d) :
  has_shape s a → has_shape s b → tf_norm (tadd a b) <= tf_norm a + tf_norm b.
Proof.
  intros Ha Hb. unfold tf_norm.
  pose proof (sumsq_nonneg a) as Hna. pose proof (sumsq_nonneg b) as Hnb.
  pose proof (sqrt_pos (sumsq a)) as Hsa. pose proof (sqrt_pos (sumsq b)) as Hsb.
  rewrite <- (sqrt_square (sqrt (sumsq a) + sqrt (sumsq b))) by lra.
  apply sqrt_le_1_alt. rewrite (sumsq_tadd s) by done.
  assert (tsum (tzip Rmult a b) <= sqrt (sumsq a) * sqrt (sumsq b)) as Hdot.
  { apply Rsqr_incr_0_var; [|nra]. unfold Rsqr.
    replace (sqrt (sumsq a) * sqrt (sumsq b) * (sqrt (sumsq a) * sqrt (sumsq b)))
      with (sqrt (sumsq a) * sqrt (sumsq a) * (sqrt (sumsq b) * sqrt (sumsq b))) by ring.
    rewrite !sqrt_sqrt by done. apply tsum_product_bound. }
  replace ((sqrt (sumsq a) + sqrt (sumsq b)) * (sqrt (sumsq a) + sqrt (sumsq b)))
    with (sqrt (sumsq a) * sqrt (sumsq a) + 2 * (sqrt (sumsq a) * sqrt (sumsq b))
          + sqrt (sumsq b) * sqrt (sumsq b)) by ring.
  rewrite !sqrt_sqrt by done. lra.
Qed.

Lemma tsub_tadd {d} (s : list nat) (a e x : tensor d) :
  has_shape s a → has_shape s e → has_shape s x →
  tsub (tadd a e) x = tadd (tsub a x) e.
Proof.
  revert s a e x. induction d as [|d IH]; intros s a e x Ha He Hx.
  - unfold tsub, tadd. simpl. ring.
  - destruct s as [|n s]; [done|].
    apply has_shape_cons in Ha as [Hla Hfa]. apply has_shape_cons in He as [Hle Hfe].
    apply has_shape_cons in Hx as [Hlx Hfx]. subst n. revert e x Hle Hfe Hlx Hfx.
    induction Hfa as [|u a Hu _ IHa]; intros [|v e] [|z x] Hle Hfe Hlx Hfx; try done.
    inversion Hfe; subst. inversion Hfx; subst.
    unfold tsub, tadd in *. simpl. f_equal.
    + by apply (IH s).
    + apply IHa; simpl in *; [lia | done | lia | done].
Qed.

Lemma tsub_self_zero {d} (x : tensor d) : tall (λ v, v = 0) (tsub x x).
Proof.
  induction d as [|d IH]; [unfold tsub; simpl; ring|].
  induction x as [|u x IHx]; [constructor|].
  unfold tsub in *. simpl. constructor; [apply IH | apply IHx].
Qed.

Lemma fooling_image_after_S (m : SqueezeNet) (target_y : Z) (k : nat) (X : tensor 4) :
  fooling_image_after m target_y (S k) X
  = tadd (fooling_image_after m target_y k X)
         (fooling_increment m target_y (fooling_image_after m target_y k X)).
Proof.
  revert X. induction k as [|k IH]; intros X; [done|].
  change (fooling_image_after m target_y (S (S k)) X)
    with (fooling_image_after m target_y (S k) (tadd X (fooling_increment m target_y X))).
  by rewrite IH.
Qed.

(** Steps of norm 1 move the image by at most their number. *)
Lemma fooling_image_after_distance (m : SqueezeNet) (target_y : Z) (s : list nat)
    (X : tensor 4) (k : nat) :
  tf_contract m → has_shape s X →
  (∀ j, (j < k)%nat →
     tf_norm (dscore m 0 target_y (fooling_image_after m target_y j X)) ≠ 0) →
  tf_norm (tsub (fooling_image_after m target_y k X) X) <= INR k.
Proof.
  intros Hm HX. induction k as [|k IH]; intros Hgrad.
  - cbn [fooling_image_after]. unfold tf_norm.
    rewrite sumsq_zero by apply tsub_self_zero. rewrite sqrt_0. simpl. lra.
  - rewrite fooling_image_after_S, S_INR.
    pose proof (has_shape_fooling_image_after m target_y s k X Hm HX) as Hk.
    assert (has_shape s (fooling_increment m target_y (fooling_image_after m target_y k X)))
      as HD.
    { apply has_shape_tmap. destruct Hm as [_ Hg]. by apply Hg. }
    rewrite (tsub_tadd s) by done.
    etransitivity; [apply (tf_norm_tadd s); [by apply has_shape_tzip | done]|].
    unfold fooling_increment at 1. rewrite tf_norm_normalised by (apply Hgrad; lia).
    assert (tf_norm (tsub (fooling_image_after m target_y k X) X) <= INR k) as Hd.
    { apply IH. intros j Hj. apply Hgrad. lia. }
    lra.
Qed.

(** X5: The fooling image stays close to [X]: every update step moves the
    image by a vector of norm 1, so after [i] steps the distance between
    the returned image and [X] is at most [i], hence at most 100.  The
    gradient of the target score is taken not to vanish at the images at
    which the run makes a step, that is, at the image after [k < 100]
    steps whenever the prediction differed from [target_y] up to there;
    a zero gradient makes the quotient 0/0. *)
Theorem fooling_image_stays_close (m : SqueezeNet) (target_y : Z) (lX : loc) (σ : heap)
    (h w : nat) (X : tensor 4) :
  tf_contract m → (0 <= target_y < 1000)%Z →
  σ !! lX = Some X → has_shape [1; h; w; 3]%nat X →
  (∀ k : nat, (k < 100)%nat →
     (∀ j : nat, (j ≤ k)%nat →
        np_argmax (classifier m (fooling_image_after m target_y j X)) ≠ Ok target_y) →
     tf_norm (dscore m 0 target_y (fooling_image_after m target_y k X)) ≠ 0) →
  ∃ lf i y σ' X_fooling,
    fooling_run 100 lX target_y m σ = Ok (lf, i, y, σ') ∧
    σ' !! lf = Some X_fooling ∧
    tf_norm (tsub X_fooling X) <= IZR i ∧ IZR i <= 100.
Proof.
  intros Hm Ht Hl HX Hgrad.
  destruct (fooling_run_trajectory m target_y lX σ [h; w; 3%nat] X 100 Hm Ht Hl HX)
    as (k & y & σ' & Hr & Hk & Hlf & Hy & Hstop & Hbefore); [unfold n_iterations; lia|].
  unfold n_iterations in Hk.
  exists (fresh (dom σ)), (Z.of_nat k), y, σ', (fooling_image_after m target_y k X).
  split; [done|]. split; [done|]. split.
  - rewrite <- INR_IZR_INZ.
    apply (fooling_image_after_distance m target_y [1; h; w; 3]%nat); [done | done |].
    intros j Hj. apply Hgrad; [lia|]. intros j' Hj'. apply Hbefore. lia.
  - apply IZR_le. lia.
Qed.

(** ** The fooling theorems on the example networks *)

Lemma single_pixel_image (X : tensor 4) :
  has_shape [1; 1; 1; 3]%nat X → ∃ a b c : R, X = [[[[a; b; c]]]].
Proof.
  intros H. apply (has_shape_cons (d:=3)) in H as [H1 HF1].
  destruct X as [|img [|]]; try done. apply List.Forall_inv in HF1.
  apply (has_shape_cons (d:=2)) in HF1 as [H2 HF2].
  destruct img as [|row [|]]; try done. apply List.Forall_inv in HF2.
  apply (has_shape_cons (d:=1)) in HF2 as [H3 HF3].
  destruct row as [|px [|]]; try done. apply List.Forall_inv in HF3.
  apply (has_shape_cons (d:=0)) in HF3 as [H4 _].
  destruct px as [|a [|b [|c [|]]]]; try done. by exists a, b, c.
Qed.

Lemma linear_model_gradient_nonzero (X : tensor 4) :
  has_shape [1; 1; 1; 3]%nat X → tf_norm (dscore linear_model 0 6 X) ≠ 0.
Proof.
  intros H. destruct (single_pixel_image X H) as (a & b & c & ->).
  assert (tf_norm (dscore linear_model 0 6 [[[[a; b; c]]]]) = sqrt 147) as ->.
  { unfold tf_norm. f_equal. simpl. change (6 + 1)%Z with 7%Z. lra. }
  intros H0. apply sqrt_eq_0 in H0; lra.
Qed.

Lemma dead_model_never_six (X : tensor 4) :
  has_shape [1; 224; 224; 3]%nat X → np_argmax (classifier dead_model X) ≠ Ok 6%Z.
Proof.
  intros H. apply (has_shape_cons (d:=3)) in H as [H1 _].
  destruct X as [|x [|]]; try done.
  change (classifier dead_model [x]) with [replicate num_classes 0].
  change num_classes with (S 999). by rewrite np_argmax_zero_row.
Qed.

(** A black image, target class 6, linear network. *)
Lemma fooling_image_prediction_witness :
  ∃ lf i y σ' X_fooling,
    fooling_run 100 1%positive 6 linear_model {[1%positive := zero_image]}
    = Ok (lf, i, y, σ') ∧
    make_fooling_image 100 1%positive 6 linear_model {[1%positive := zero_image]}
    = Ok (lf, σ') ∧
    σ' !! lf = Some X_fooling ∧ has_shape [1; 224; 224; 3]%nat X_fooling ∧
    np_argmax (classifier linear_model X_fooling) = Ok y ∧
    ((i < 100)%Z → np_argmax (classifier linear_model X_fooling) = Ok 6%Z).
Proof.
  apply (fooling_image_prediction linear_model 6 1%positive {[1%positive := zero_image]}
           224 224 zero_image).
  - apply linear_model_contract.
  - lia.
  - apply lookup_singleton_eq.
  - apply has_shape_zero_image.
Defined.

(** The network without reaction predicts class 0 for the black image:
    asked for target 0 it returns a copy at once. *)
Lemma fooling_image_already_target_witness :
  fooling_run 7 1%positive 0 dead_model {[1%positive := zero_image]}
  = Ok (fresh (dom ({[1%positive := zero_image]} : heap)), 0%Z, 0%Z,
        <[fresh (dom ({[1%positive := zero_image]} : heap)) := zero_image]>
          {[1%positive := zero_image]}) ∧
  make_fooling_image 7 1%positive 0 dead_model {[1%positive := zero_image]}
  = Ok (fresh (dom ({[1%positive := zero_image]} : heap)),
        <[fresh (dom ({[1%positive := zero_image]} : heap)) := zero_image]>
          {[1%positive := zero_image]}) ∧
  fresh (dom ({[1%positive := zero_image]} : heap)) ≠ 1%positive.
Proof.
  apply (fooling_image_already_target dead_model 0 1%positive
           {[1%positive := zero_image]} zero_image 7).
  - lia.
  - apply lookup_singleton_eq.
  - change (classifier dead_model zero_image) with [replicate num_classes 0].
    change num_classes with (S 999). apply np_argmax_zero_row.
Defined.

(** The network without reaction never predicts class 6. *)
Lemma fooling_loop_exhausts_iterations_witness :
  ∃ lf y σ',
    fooling_run 100 1%positive 6 dead_model {[1%positive := zero_image]}
    = Ok (lf, 100%Z, y, σ') ∧ y ≠ 6%Z.
Proof.
  apply (fooling_loop_exhausts_iterations dead_model 6 1%positive
           {[1%positive := zero_image]} 224 224 zero_image).
  - apply dead_model_contract.
  - lia.
  - apply lookup_singleton_eq.
  - apply has_shape_zero_image.
  - apply dead_model_never_six.
Defined.

(** The check after the call, for the same network and target. *)
Lemma fooling_check_outcome_witness :
  ∃ lf i y σ',
    fooling_run 100 1%positive 6 dead_model {[1%positive := zero_image]}
    = Ok (lf, i, y, σ') ∧
    (y = 6%Z →
       fooling_check 100 1%positive 6 dead_model {[1%positive := zero_image]}
       = Ok (lf, σ')) ∧
    (y ≠ 6%Z →
       i = 100%Z ∧
       fooling_check 100 1%positive 6 dead_model {[1%positive := zero_image]}
       = Raise AssertionError).
Proof.
  apply (fooling_check_outcome dead_model 6 1%positive {[1%positive := zero_image]}
           224 224 zero_image).
  - apply dead_model_contract.
  - lia.
  - apply lookup_singleton_eq.
  - apply has_shape_zero_image.
Defined.

(** One pixel, linear network: the gradient of class 6 is (7, 7, 7)
    everywhere. *)
Lemma fooling_image_stays_close_witness :
  ∃ lf i y σ' X_fooling,
    fooling_run 100 1%positive 6 linear_model {[1%positive := one_pixel]}
    = Ok (lf, i, y, σ') ∧
    σ' !! lf = Some X_fooling ∧
    tf_norm (tsub X_fooling one_pixel) <= IZR i ∧ IZR i <= 100.
Proof.
  apply (fooling_image_stays_close linear_model 6 1%positive {[1%positive := one_pixel]}
           1 1 one_pixel).
  - apply linear_model_contract.
  - lia.
  - apply lookup_singleton_eq.
  - reflexivity.
  - intros k _ _. apply linear_model_gradient_nonzero.
    by apply has_shape_fooling_image_after; [apply linear_model_contract|].
Defined.

(** ** What the blur and the jitter leave alone *)

Lemma pixel_within_const (px row : list R) :
  Forall2 (λ x b, 1 * b.1 <= x <= 1 * b.2) row (zip px px) ↔ row = px.
Proof.
  revert row. induction px as [|c px IH]; intros row; simpl.
  - split; [by intros ->%Forall2_nil_inv_r | intros ->; constructor].
  - split.
    + intros H. inversion H as [|x b row' bs Hx Hrow]; subst. simpl in Hx.
      f_equal; [lra | by apply IH].
    + intros ->. constructor; [simpl; lra | by apply IH].
Qed.

(** Two arrays of one shape whose pixels all equal [px] are equal. *)
Lemma within_const_unique {d} (px : list R) (s : list nat) (a b : tensor (S d)) :
  has_shape s a → has_shape s b → within px px a → within px px b → a = b.
Proof.
  unfold within. revert s a b. induction d as [|d IH]; intros s a b Ha Hb Wa Wb.
  - simpl in Wa, Wb. apply pixel_within_const in Wa, Wb. congruence.
  - destruct s as [|n s]; [done|].
    apply has_shape_cons in Ha as [Hla Hfa]. apply has_shape_cons in Hb as [Hlb Hfb].
    simpl in Wa, Wb. subst n. revert b Hlb Hfb Wb.
    induction Hfa as [|x a Hx _ IHa]; intros [|y b] Hlb Hfb Wb; try done.
    inversion Hfb; subst. inversion Wa; subst. inversion Wb; subst.
    f_equal; [by apply (IH s) | apply IHa; simpl in *; [done | lia | done | done]].
Qed.

(** X6: [blur_image] leaves an image of one colour unchanged, for every
    positive [sigma]: the Gaussian weights sum to 1 and the borders are
    extended by reflection. *)
Theorem blur_image_constant (h w : nat) (px : list R) (sigma : R) :
  0 < sigma →
  blur_image [replicate h (replicate w px)] sigma = [replicate h (replicate w px)].
Proof.
  intros _.
  set (X := [replicate h (replicate w px)] : tensor 4).
  assert (has_shape [1; h; w; length px]%nat X) as HX.
  { apply (has_shape_cons (d:=3)). split; [done|]. apply Forall_singleton.
    by apply (has_shape_replicate (d:=2)), (has_shape_replicate (d:=1)), has_shape_row. }
  assert (within px px X) as HW.
  { unfold within, X. simpl. apply Forall_singleton, Forall_replicate, Forall_replicate.
    by apply pixel_within_const. }
  apply (within_const_unique (d:=3) px [1; h; w; length px]%nat);
    [by apply has_shape_blur_image | done | by apply blur_image_within | done].
Qed.

(** A grey image of 2 by 3 pixels, blurred as the class visualisation does. *)
Lemma blur_image_constant_witness :
  blur_image [replicate 2 (replicate 3 [1 / 2; 1 / 2; 1 / 2])] (1 / 2)
  = [replicate 2 (replicate 3 [1 / 2; 1 / 2; 1 / 2])].
Proof.
  apply (blur_image_constant 2 3 [1 / 2; 1 / 2; 1 / 2] (1 / 2)). lra.
Defined.

Lemma sumsq_app {d} (l k : list (tensor d)) :
  sumsq (d:=S d) (l ++ k) = sumsq (d:=S d) l + sumsq (d:=S d) k.
Proof. induction l as [|x l IH]; simpl in *; [lra|]. rewrite IH. lra. Qed.

Lemma sumsq_roll {d} (sh : Z) (l : list (tensor d)) :
  sumsq (d:=S d) (roll sh l) = sumsq (d:=S d) l.
Proof.
  unfold roll. case_match; [done|].
  rewrite sumsq_app, Rplus_comm, <- sumsq_app. by rewrite take_drop.
Qed.

Lemma sumsq_np_roll {d} (sh : Z) (axis : nat) (t : tensor d) :
  sumsq (np_roll sh axis t) = sumsq t.
Proof.
  revert axis t. induction d as [|d IH]; intros axis t; [done|].
  destruct axis as [|axis].
  - apply sumsq_roll.
  - simpl. induction t as [|x t IHt]; simpl; [done|]. by rewrite IH, IHt.
Qed.

Lemma has_shapeb_np_roll {d} (sh : Z) (axis : nat) (s : list nat) (t : tensor d) :
  has_shapeb s (np_roll sh axis t) = has_shapeb s t.
Proof.
  destruct (has_shapeb s t) eqn:Ht.
  - by apply has_shape_np_roll.
  - destruct (has_shapeb s (np_roll sh axis t)) eqn:Hr; [|done].
    apply (has_shape_np_roll (- sh) axis) in Hr.
    rewrite np_roll_inverse in Hr. unfold has_shape in Hr. congruence.
Qed.

(** X7: The jitter only moves entries around: the jittered image has the
    shape and the norm of the image, so the jitter does not change the
    regularisation term [l2_reg * tf.norm(image)], and likewise when it is
    undone. *)
Theorem jitter_keeps_shape_and_norm (ox oy : Z) (s : list nat) (X : tensor 4) :
  has_shapeb s (jitter ox oy X) = has_shapeb s X ∧
  tf_norm (jitter ox oy X) = tf_norm X ∧
  has_shapeb s (unjitter ox oy X) = has_shapeb s X ∧
  tf_norm (unjitter ox oy X) = tf_norm X.
Proof.
  unfold jitter, unjitter, tf_norm.
  rewrite !has_shapeb_np_roll, !sumsq_np_roll. done.
Qed.

(** ** Edge values of the keyword arguments *)

Section ClassVisualizationEdges.
Context (SQUEEZENET_MEAN SQUEEZENET_STD : list R).
Context (preprocess_image : tensor 3 → tensor 3).
Context (class_names : gmap Z string).
Context {G : Type} (rs : RandomState G).

Local Abbreviation lo := (clip_lo SQUEEZENET_MEAN SQUEEZENET_STD).
Local Abbreviation hi := (clip_hi SQUEEZENET_MEAN SQUEEZENET_STD).
Local Abbreviation utils_ok := (image_utils_ok SQUEEZENET_MEAN SQUEEZENET_STD preprocess_image).
Local Abbreviation iteration := (cv_iteration SQUEEZENET_MEAN SQUEEZENET_STD class_names rs).
Local Abbreviation loop := (cv_loop SQUEEZENET_MEAN SQUEEZENET_STD class_names rs).
Local Abbreviation visualize :=
  (create_class_visualization SQUEEZENET_MEAN SQUEEZENET_STD preprocess_image class_names rs).

(** One iteration up to the point where the divisors and the class name
    are used: the jitter is drawn, the gradient step is made and the image
    is clipped; what remains are the two tests and the title. *)
Lemma cv_iteration_steps (target_y : Z) (m : SqueezeNet) (kw : kwargs) (t : Z)
    (X : tensor 4) (g : G) :
  tf_contract m → utils_ok → (0 <= max_jitter kw)%Z →
  has_shape [1; 224; 224; 3]%nat X →
  ∃ (g' : G) (C : tensor 4),
    has_shape [1; 224; 224; 3]%nat C ∧
    iteration target_y m kw t (X, g)
    = (blur ← blur_due kw t;
       show ← show_due kw t;
       _ ← (if show : bool then cv_show class_names target_y else Ok ());
       Ok (if blur : bool then blur_image C (1 / 2) else C, g')).
Proof.
  intros Hm (Hlm & Hls & _ & _) Hj HX.
  destruct (random_randint rs (- max_jitter kw) (max_jitter kw + 1) g) as [[ox oy] g'] eqn:Hr.
  assert (np_random_randint rs (- max_jitter kw) (max_jitter kw + 1) g = Ok ((ox, oy), g'))
    as Hrand.
  { unfold np_random_randint. rewrite Hr.
    by destruct (Z.ltb_spec (- max_jitter kw) (max_jitter kw + 1)); [|lia]. }
  pose proof (clip_bounds_length _ _ Hlm Hls) as Hlen.
  pose proof (has_shape_cv_ascent target_y m kw ox oy _ X Hm HX) as HY.
  exists g', (np_clip lo hi (cv_ascent target_y m kw ox oy X)).
  split; [by apply has_shape_np_clip_rgb|].
  unfold cv_iteration. rewrite Hrand, bind_Ok. cbv beta iota.
  unfold tf_gradients, tsum_like, unpack_first. cbn [List.map foldl]. rewrite bind_Ok.
  assert (has_shapeb [1; 224; 224; 3]%nat
            (grad_image m (cv_loss kw target_y) (jitter ox oy X)) = true) as ->.
  { apply has_shape_grad_image; [done|]. by do 2 apply has_shape_np_roll. }
  fold (cv_ascent target_y m kw ox oy X).
  destruct (blur_due kw t) as [b| |]; [|done..]. rewrite !bind_Ok.
  destruct (show_due kw t) as [sh| |]; [|done..]. rewrite !bind_Ok.
  by destruct (if sh then cv_show class_names target_y else Ok ()).
Qed.

Lemma visualize_unfold (target_y : Z) (m : SqueezeNet) (kw : kwargs) (g : G) :
  (0 <= target_y < 1000)%Z →
  visualize target_y m kw g
  = loop target_y m kw (Z.to_nat (num_iterations kw)) 0 (cv_initial preprocess_image rs g).
Proof.
  intros Ht. unfold create_class_visualization. cbv zeta.
  by rewrite (tf_class_index_ok target_y Ht), bind_Ok.
Qed.

(** X8: [blur_every = 0] is not "never blur": as soon as the loop runs, the
    test [t % blur_every == 0] raises [ZeroDivisionError]. *)
Theorem cv_blur_every_zero_raises (target_y : Z) (m : SqueezeNet) (kw : kwargs) (g : G) :
  tf_contract m → rand_contract rs → utils_ok →
  (0 <= target_y < 1000)%Z → (0 <= max_jitter kw)%Z →
  blur_every kw = 0%Z → (0 < num_iterations kw)%Z →
  visualize target_y m kw g = Raise ZeroDivisionError.
Proof.
  intros Hm Hrand Hu Ht Hj Hb Hn. rewrite visualize_unfold by done.
  pose proof (cv_initial_shape SQUEEZENET_MEAN SQUEEZENET_STD preprocess_image rs g Hrand Hu) as H0.
  destruct (cv_initial preprocess_image rs g) as [X0 g0]. cbn [fst] in H0.
  destruct (Z.to_nat (num_iterations kw)) as [|n] eqn:Hnat; [lia|].
  cbn [cv_loop].
  destruct (cv_iteration_steps target_y m kw 0 X0 g0 Hm Hu Hj H0) as (g' & C & _ & ->).
  unfold blur_due. by rewrite Hb.
Qed.

(** X9: A negative [max_jitter] leaves no number to draw: the first
    iteration raises the [ValueError] of [np.random.randint]. *)
Theorem cv_negative_jitter_raises (target_y : Z) (m : SqueezeNet) (kw : kwargs) (g : G) :
  (0 <= target_y < 1000)%Z → (max_jitter kw < 0)%Z → (0 < num_iterations kw)%Z →
  visualize target_y m kw g = Raise (ValueError "low >= high").
Proof.
  intros Ht Hj Hn. rewrite visualize_unfold by done.
  destruct (cv_initial preprocess_image rs g) as [X0 g0].
  destruct (Z.to_nat (num_iterations kw)) as [|n] eqn:Hnat; [lia|].
  cbn [cv_loop]. unfold cv_iteration, np_random_randint.
  by destruct (Z.ltb_spec (- max_jitter kw) (max_jitter kw + 1)); [lia|].
Qed.

(** X10: The first iteration always shows the image, and its title needs the
    name of the class: a target without a name raises [KeyError] at
    iteration 0. *)
Theorem cv_unnamed_target_raises (target_y : Z) (m : SqueezeNet) (kw : kwargs) (g : G) :
  tf_contract m → rand_contract rs → utils_ok →
  (0 <= target_y < 1000)%Z → (0 <= max_jitter kw)%Z → blur_every kw ≠ 0%Z →
  class_names !! target_y = None → (0 < num_iterations kw)%Z →
  visualize target_y m kw g = Raise KeyError.
Proof.
  intros Hm Hrand Hu Ht Hj Hb Hname Hn. rewrite visualize_unfold by done.
  pose proof (cv_initial_shape SQUEEZENET_MEAN SQUEEZENET_STD preprocess_image rs g Hrand Hu) as H0.
  destruct (cv_initial preprocess_image rs g) as [X0 g0]. cbn [fst] in H0.
  destruct (Z.to_nat (num_iterations kw)) as [|n] eqn:Hnat; [lia|].
  cbn [cv_loop].
  destruct (cv_iteration_steps target_y m kw 0 X0 g0 Hm Hu Hj H0) as (g' & C & _ & ->).
  rewrite (blur_due_ok kw 0 Hb), bind_Ok.
  unfold show_due, cv_show. simpl. by rewrite Hname.
Qed.

(** X11: [show_every = 0] goes unnoticed in the first iteration, where
    [t == 0] decides the test before the division is tried, and raises
    [ZeroDivisionError] in the second: a call with at most one iteration
    returns an image, a call with more raises. *)
Theorem cv_show_every_zero (target_y : Z) (m : SqueezeNet) (kw : kwargs) (g : G) :
  tf_contract m → rand_contract rs → utils_ok →
  (0 <= target_y < 1000)%Z → (0 <= max_jitter kw)%Z → blur_every kw ≠ 0%Z →
  is_Some (class_names !! target_y) → show_every kw = 0%Z →
  ((num_iterations kw <= 1)%Z → ∃ X g', visualize target_y m kw g = Ok (X, g')) ∧
  ((2 <= num_iterations kw)%Z → visualize target_y m kw g = Raise ZeroDivisionError).
Proof.
  intros Hm Hrand Hu Ht Hj Hb Hname Hs. rewrite visualize_unfold by done.
  pose proof (cv_initial_shape SQUEEZENET_MEAN SQUEEZENET_STD preprocess_image rs g Hrand Hu) as H0.
  destruct (cv_initial preprocess_image rs g) as [X0 g0]. cbn [fst] in H0.
  destruct (cv_iteration_steps target_y m kw 0 X0 g0 Hm Hu Hj H0) as (g1 & C & HC & Hit).
  rewrite (blur_due_ok kw 0 Hb), bind_Ok in Hit.
  unfold show_due in Hit. cbn [Z.eqb] in Hit.
  rewrite bind_Ok, (cv_show_ok class_names target_y Hname), bind_Ok in Hit.
  set (X1 := if (0 mod blur_every kw =? 0)%Z then blur_image C (1 / 2) else C) in Hit.
  assert (has_shape [1; 224; 224; 3]%nat X1) as HX1.
  { subst X1. destruct (0 mod blur_every kw =? 0)%Z; [by apply has_shape_blur_image | done]. }
  split; intros Hn.
  - destruct (Z.to_nat (num_iterations kw)) as [|[|n]] eqn:Hnat; [by eauto| |lia].
    cbn [cv_loop]. rewrite Hit, bind_Ok. by eauto.
  - destruct (Z.to_nat (num_iterations kw)) as [|[|n]] eqn:Hnat; [lia|lia|].
    cbn [cv_loop]. rewrite Hit, bind_Ok.
    destruct (cv_iteration_steps target_y m kw (0 + 1) X1 g1 Hm Hu Hj HX1)
      as (g2 & C2 & _ & ->).
    rewrite (blur_due_ok kw (0 + 1) Hb), bind_Ok.
    unfold show_due. cbn [Z.add Z.eqb Pos.eqb]. by rewrite Hs.
Qed.

(** X12: With arguments that raise nothing the function returns an array of
    shape (1, 224, 224, 3), whatever the number of iterations. *)
Theorem cv_result_shape (target_y : Z) (m : SqueezeNet) (kw : kwargs) (g : G) :
  tf_contract m → rand_contract rs → utils_ok → cv_ready class_names target_y kw →
  ∃ X g', visualize target_y m kw g = Ok (X, g') ∧ has_shape [1; 224; 224; 3]%nat X.
Proof.
  intros Hm Hrand Hu Hr. rewrite visualize_unfold by (by destruct Hr).
  pose proof (cv_initial_shape SQUEEZENET_MEAN SQUEEZENET_STD preprocess_image rs g Hrand Hu) as H0.
  destruct (cv_initial preprocess_image rs g) as [X0 g0]. cbn [fst] in H0.
  destruct (cv_loop_invariant SQUEEZENET_MEAN SQUEEZENET_STD preprocess_image class_names rs
              target_y m kw (Z.to_nat (num_iterations kw)) 0 X0 g0 Hm Hu Hr H0)
    as (X & g' & Hl & HX & _).
  by exists X, g'.
Qed.
End ClassVisualizationEdges.

(** The edge values on the usual statistics, the constant generator and
    the linear network. *)
Lemma cv_blur_every_zero_raises_witness :
  create_class_visualization imagenet_mean imagenet_std standard_preprocess
    tarantula_only constant_rng 76 linear_model blur_every_zero ()
  = Raise ZeroDivisionError.
Proof.
  apply (cv_blur_every_zero_raises imagenet_mean imagenet_std standard_preprocess
           tarantula_only constant_rng 76 linear_model blur_every_zero ()).
  - apply linear_model_contract.
  - apply constant_rng_contract.
  - apply imagenet_utils_ok.
  - lia.
  - done.
  - reflexivity.
  - reflexivity.
Defined.

Lemma cv_negative_jitter_raises_witness :
  create_class_visualization imagenet_mean imagenet_std standard_preprocess
    tarantula_only constant_rng 76 linear_model negative_jitter ()
  = Raise (ValueError "low >= high").
Proof.
  apply (cv_negative_jitter_raises imagenet_mean imagenet_std standard_preprocess
           tarantula_only constant_rng 76 linear_model negative_jitter ()).
  - lia.
  - reflexivity.
  - reflexivity.
Defined.

Lemma cv_unnamed_target_raises_witness :
  create_class_visualization imagenet_mean imagenet_std standard_preprocess
    tarantula_only constant_rng 5 linear_model default_kwargs ()
  = Raise KeyError.
Proof.
  apply (cv_unnamed_target_raises imagenet_mean imagenet_std standard_preprocess
           tarantula_only constant_rng 5 linear_model default_kwargs ()).
  - apply linear_model_contract.
  - apply constant_rng_contract.
  - apply imagenet_utils_ok.
  - lia.
  - done.
  - done.
  - reflexivity.
  - reflexivity.
Defined.

Lemma cv_show_every_zero_witness :
  ((num_iterations (show_every_zero 2) <= 1)%Z →
     ∃ X g',
       create_class_visualization imagenet_mean imagenet_std standard_preprocess
         tarantula_only constant_rng 76 linear_model (show_every_zero 2) () = Ok (X, g')) ∧
  ((2 <= num_iterations (show_every_zero 2))%Z →
     create_class_visualization imagenet_mean imagenet_std standard_preprocess
       tarantula_only constant_rng 76 linear_model (show_every_zero 2) ()
     = Raise ZeroDivisionError).
Proof.
  apply (cv_show_every_zero imagenet_mean imagenet_std standard_preprocess
           tarantula_only constant_rng 76 linear_model (show_every_zero 2) ()).
  - apply linear_model_contract.
  - apply constant_rng_contract.
  - apply imagenet_utils_ok.
  - lia.
  - done.
  - done.
  - unfold tarantula_only. rewrite lookup_singleton_eq. by eexists.
  - reflexivity.
Defined.

Lemma cv_result_shape_witness :
  ∃ X g',
    create_class_visualization imagenet_mean imagenet_std standard_preprocess
      tarantula_only constant_rng 76 linear_model default_kwargs () = Ok (X, g') ∧
    has_shape [1; 224; 224; 3]%nat X.
Proof.
  apply (cv_result_shape imagenet_mean imagenet_std standard_preprocess
           tarantula_only constant_rng 76 linear_model default_kwargs ()).
  - apply linear_model_contract.
  - apply constant_rng_contract.
  - apply imagenet_utils_ok.
  - apply default_kwargs_ready.
Defined.

(** ** Showing saliency maps *)

Lemma py_getitem_valid {A} (l : list A) (k : Z) :
  (- Z.of_nat (length l) <= k < Z.of_nat (length l))%Z →
  ∃ x, py_getitem l k = Ok x ∧ x ∈ l.
Proof.
  intros Hk. unfold py_getitem.
  set (k' := if (k <? 0)%Z then (k + Z.of_nat (length l))%Z else k).
  assert (0 <= k' < Z.of_nat (length l))%Z as Hk'.
  { subst k'. destruct (Z.ltb_spec k 0); lia. }
  destruct (Z.leb_spec 0 k') as [_|?]; [|lia].
  destruct (Z.ltb_spec k' (Z.of_nat (length l))) as [_|?]; [|lia]. cbn [andb].
  destruct (lookup_lt_is_Some_2 l (Z.to_nat k')) as [x Hx]; [lia|].
  rewrite Hx. exists x. split; [done|]. by eapply list_elem_of_lookup_2.
Qed.

Lemma py_getitem_invalid {A} (l : list A) (k : Z) :
  ¬ (- Z.of_nat (length l) <= k < Z.of_nat (length l))%Z →
  py_getitem l k = Raise IndexError.
Proof.
  intros Hk. unfold py_getitem.
  set (k' := if (k <? 0)%Z then (k + Z.of_nat (length l))%Z else k).
  assert (¬ (0 <= k' < Z.of_nat (length l))%Z) as Hk'.
  { subst k'. destruct (Z.ltb_spec k 0); lia. }
  destruct (Z.leb_spec 0 k'); destruct (Z.ltb_spec k' (Z.of_nat (length l)));
    cbn [andb]; try done. lia.
Qed.

Lemma py_getitem_raises_only_IndexError {A} (l : list A) (k : Z) :
  (∃ x, py_getitem l k = Ok x) ∨ py_getitem l k = Raise IndexError.
Proof.
  destruct (decide (- Z.of_nat (length l) <= k < Z.of_nat (length l))%Z) as [H|H].
  - left. destruct (py_getitem_valid l k H) as (x & Hx & _). eauto.
  - right. by apply py_getitem_invalid.
Qed.

(** [mapM] stops with the error of the first entry that fails. *)
Lemma mapM_result_raise {A B} (f : A → result B) (e : exn) (l : list A) (x : A) :
  (∀ a, (∃ b, f a = Ok b) ∨ f a = Raise e) → x ∈ l → f x = Raise e →
  mapM f l = Raise e.
Proof.
  intros Hf Hin Hx. induction l as [|a l IH]; [by apply elem_of_nil in Hin|].
  simpl. destruct (Hf a) as [[b Hb]|Ha].
  - rewrite Hb, bind_Ok. apply elem_of_cons in Hin as [->|Hin]; [congruence|].
    by rewrite (IH Hin).
  - by rewrite Ha.
Qed.

Lemma np_take_ok {A} (l : list A) (mask : list Z) :
  Forall (λ k, (- Z.of_nat (length l) <= k < Z.of_nat (length l))%Z) mask →
  ∃ r, np_take l mask = Ok r ∧ length r = length mask ∧ Forall (λ x, x ∈ l) r.
Proof.
  intros H. apply (mapM_result_ok (py_getitem l) (λ x, x ∈ l)).
  eapply Forall_impl; [exact H|]. intros k Hk. by apply py_getitem_valid.
Qed.

(** X13: [show_saliency_maps] runs through when every index of [mask] points
    into the batch (negative indices count from the end), every label
    indexes a class and has a name: the selection and its saliency map
    have one entry per index of [mask], so the plotting loop never reads
    past their end. *)
Theorem show_saliency_maps_runs (class_names : gmap Z string) (m : SqueezeNet)
    (N H W : nat) (X : tensor 4) (y mask : list Z) :
  tf_contract m → has_shape [N; H; W; 3%nat] X → length y = N →
  Forall (λ k, (0 <= k < 1000)%Z ∧ is_Some (class_names !! k)) y →
  Forall (λ k, (- Z.of_nat N <= k < Z.of_nat N)%Z) mask →
  show_saliency_maps class_names m X y mask = Ok ().
Proof.
  intros Hm HX Hy Hlab Hmask.
  pose proof HX as HX'. apply (has_shape_cons (d:=3)) in HX' as [HN HXs].
  destruct (np_take_ok (X : list (tensor 3)) mask) as (Xm & HXm & HlXm & HinX).
  { by rewrite HN. }
  destruct (np_take_ok y mask) as (ym & Hym & Hlym & Hiny).
  { by rewrite Hy. }
  assert (has_shape (d:=4) [length mask; H; W; 3%nat] Xm) as HsXm.
  { apply (has_shape_cons (d:=3)). split; [done|].
    eapply Forall_impl; [exact HinX|]. intros x Hx.
    by apply (proj1 (Forall_forall _ _) HXs x). }
  assert (Forall (λ k, (0 <= k < 1000)%Z ∧ is_Some (class_names !! k)) ym) as Hlabm.
  { eapply Forall_impl; [exact Hiny|]. intros k Hk.
    by apply (proj1 (Forall_forall _ _) Hlab k). }
  assert (length Xm = length ym) as Hlen by congruence.
  unfold show_saliency_maps. rewrite HXm, bind_Ok, Hym, bind_Ok.
  destruct (saliency_abs_gradient m _ Xm ym Hm HsXm) as [Hshape Hpos].
  destruct (np_max_last_ok [length mask; H; W] 2 _ eq_refl Hshape Hpos) as (S & HS & HsS & _).
  assert (compute_saliency_maps Xm ym m = Ok S) as ->.
  { rewrite saliency_unfold; [exact HS | done |].
    eapply Forall_impl; [exact Hlabm|]. by intros k [? _]. }
  rewrite bind_Ok.
  apply (has_shape_cons (d:=2)) in HsS as [HlS _].
  destruct (mapM_result_ok (show_saliency_row class_names Xm ym mask S) (λ _, True)
              (seq 0 (length mask))) as (rs & -> & _); [|done].
  apply Forall_forall. intros i Hi. apply elem_of_seq in Hi as [_ Hi]. simpl in Hi.
  exists (). split; [|done]. unfold show_saliency_row.
  destruct (py_getitem_valid (Xm : list (tensor 3)) (Z.of_nat i)) as (x & -> & _); [lia|].
  rewrite bind_Ok.
  destruct (py_getitem_valid ym (Z.of_nat i)) as (yi & -> & Hyi); [lia|].
  rewrite bind_Ok.
  destruct (proj1 (Forall_forall _ _) Hlabm yi Hyi) as [_ [name Hname]].
  unfold py_dict_getitem. rewrite Hname, bind_Ok.
  destruct (py_getitem_valid mask (Z.of_nat i)) as (k & -> & _); [lia|].
  rewrite bind_Ok.
  destruct (py_getitem_valid (S : list (tensor 2)) (Z.of_nat i)) as (si & -> & _); [lia|].
  by rewrite bind_Ok.
Qed.

(** X14: An index of [mask] that does not point into the batch makes
    [show_saliency_maps] raise [IndexError] at the selection [X[mask]],
    before anything is computed. *)
Theorem show_saliency_maps_bad_mask (class_names : gmap Z string) (m : SqueezeNet)
    (X : tensor 4) (y mask : list Z) (k : Z) :
  k ∈ mask → (k < - Z.of_nat (length X) ∨ Z.of_nat (length X) <= k)%Z →
  show_saliency_maps class_names m X y mask = Raise IndexError.
Proof.
  intros Hin Hk. unfold show_saliency_maps, np_take.
  rewrite (mapM_result_raise (py_getitem (X : list (tensor 3))) IndexError mask k); [done| |done|].
  - intros a. apply py_getitem_raises_only_IndexError.
  - apply py_getitem_invalid. cbv beta iota fix delta [tensor] in *. lia.
Qed.

(** The call of the notebook, [mask = np.arange(5)] on five images, in
    small: two one-pixel images and the mask (0, 1). *)
Lemma show_saliency_maps_runs_witness :
  show_saliency_maps {[0%Z := "tench"; 1%Z := "goldfish"]} linear_model
    two_examples [0; 1]%Z [0; 1]%Z = Ok ().
Proof.
  apply (show_saliency_maps_runs {[0%Z := "tench"; 1%Z := "goldfish"]} linear_model
           2 1 1 two_examples [0; 1]%Z [0; 1]%Z).
  - apply linear_model_contract.
  - reflexivity.
  - reflexivity.
  - repeat constructor; try lia; by eexists.
  - repeat constructor; lia.
Defined.

Lemma show_saliency_maps_bad_mask_witness :
  show_saliency_maps ∅ linear_model two_examples [0; 1]%Z [0; 2]%Z = Raise IndexError.
Proof.
  apply (show_saliency_maps_bad_mask ∅ linear_model two_examples [0; 1]%Z [0; 2]%Z 2).
  - set_solver.
  - right. simpl. lia.
Defined.
